(** * ASE enforcement engine

    A shallow embedding of [include/ase/ase.hpp] (namespace [ase]): the
    enumeration [Mode], the records [Config] and [Dependencies], and the class
    [Engine] with its entry point [enforce] and its private methods
    [enforce_scale], [enforce_project], [safe_is_admissible] and
    [neutral_safe].

    The engine is a template over two host types, [State] and [Step]; it
    reaches the host only through four function pointers.  A C++ function
    pointer may read and write host globals (the integration test counts calls
    in one) and may throw, so a hook is modelled as a function on a host world
    [W] that yields an outcome and the next world.  Every hook invocation is
    logged, with its arguments and its outcome, so that statements about which
    hook is invoked, and how often, are statements about the log.

    [double] is IEEE 754 binary64 with round-to-nearest, that is Rocq's
    primitive [float]. *)

From Stdlib Require Import List Bool Arith Lia PrimFloat.
From Stdlib Require Import SpecFloat FloatOps FloatAxioms.
Import ListNotations.

#[local] Set Warnings "-inexact-float,-notation-for-abbreviation".

(** ** Data model *)

(** [enum class Mode : std::uint8_t { Reject = 0, Scale = 1, Project = 2 }]. *)
Inductive Mode : Set :=
| Reject
| Scale
| Project.

(** [struct Config]: the mode and the two Scale-mode bounds.  The attempt
    bound is a [std::size_t] that only bounds a loop counter starting at 0, so
    it is a natural number here. *)
Record Config : Set := mkConfig {
  mode : Mode;
  max_scale_attempts : nat;
  scale_factor : float
}.

(** The default member initialisers of [Config]. *)
Definition Config_default : Config :=
  {| mode := Reject; max_scale_attempts := 16; scale_factor := 0.5 |}.

(** [Step{}]: the template requires [Step] to be value-initialisable. *)
Class ValueInit (A : Type) : Type := value_init : A.

(** [double{}] is [0.0]. *)
#[export] Instance double_ValueInit : ValueInit float := 0%float.

(** How an invocation ends: it returns a value, it throws, or
    [std::terminate] is called (an exception reached a [noexcept] boundary). *)
Inductive Outcome (A : Type) : Type :=
| Returned (a : A)
| Thrown
| Terminated.

Arguments Returned {A} a.
Arguments Thrown {A}.
Arguments Terminated {A}.

(** What a [noexcept] boundary makes of an outcome: an exception ends in
    [std::terminate]. *)
Definition at_noexcept {A : Type} (r : Outcome A) : Outcome A :=
  match r with
  | Thrown => Terminated
  | _ => r
  end.

(** A host function: from the host world to an outcome and the next world. *)
Definition Hook (W A : Type) : Type := W -> Outcome A * W.

(** An optional value as an outcome: [None] is an exception. *)
Definition outcome_of_option {A : Type} (o : option A) : Outcome A :=
  match o with
  | Some a => Returned a
  | None => Thrown
  end.

(** A hook that has no effect and does not look at the world. *)
Definition pure_hook {W A : Type} (a : A) : Hook W A := fun w => (Returned a, w).

(** A hook that throws without any other effect. *)
Definition throwing_hook {W A : Type} : Hook W A := fun w => (Thrown, w).

(** A pure predicate that may throw: [None] stands for the exception. *)
Definition hook_of_option {W A : Type} (o : option A) : Hook W A :=
  match o with
  | Some a => pure_hook a
  | None => throwing_hook
  end.

Section Engine.

Context {W State Step : Type} {Step_init : ValueInit Step}.

(** [struct Dependencies<State, Step>]: four function pointers, each null by
    default ([None]).  [scale_step] and [project_step] write their result
    through the reference [out] and return a success flag: here they receive
    the content of [out] before the call and give back the flag together with
    the content of [out] after it. *)
Record Dependencies : Type := mkDependencies {
  is_admissible : option (State -> Step -> Hook W bool);
  neutral_step : option (Hook W Step);
  scale_step : option (Step -> float -> Step -> Hook W (bool * Step));
  project_step : option (State -> Step -> Step -> Hook W (bool * Step))
}.

(** One logged hook invocation: the hook, its arguments, its outcome. *)
Inductive Call : Type :=
| IsAdmissible (st : State) (dS : Step) (r : Outcome bool)
| NeutralStep (r : Outcome Step)
| ScaleStep (input : Step) (k : float) (r : Outcome (bool * Step))
| ProjectStep (st : State) (input : Step) (r : Outcome (bool * Step)).

(** The result of running a piece of engine code from a world. *)
Record Run (A : Type) : Type := mkRun {
  outcome : Outcome A;
  world : W;
  calls : list Call
}.

Arguments mkRun {A} outcome world calls.

(** Engine code: a computation over the host world that logs hook calls. *)
Definition M (A : Type) : Type := W -> Run A.

Definition ret {A : Type} (a : A) : M A := fun w => mkRun (Returned a) w [].

(** Sequencing: the second part runs only if the first returns; its calls
    are logged after those of the first. *)
Definition bind {A B : Type} (m : M A) (f : A -> M B) : M B := fun w =>
  match m w with
  | mkRun (Returned a) w1 t1 =>
      match f a w1 with
      | mkRun o w2 t2 => mkRun o w2 (t1 ++ t2)
      end
  | mkRun Thrown w1 t1 => mkRun Thrown w1 t1
  | mkRun Terminated w1 t1 => mkRun Terminated w1 t1
  end.

(** [try { m } catch (...) { handler }]. *)
Definition try_catch {A : Type} (m handler : M A) : M A := fun w =>
  match m w with
  | mkRun Thrown w1 t1 =>
      match handler w1 with
      | mkRun o w2 t2 => mkRun o w2 (t1 ++ t2)
      end
  | mkRun (Returned a) w1 t1 => mkRun (Returned a) w1 t1
  | mkRun Terminated w1 t1 => mkRun Terminated w1 t1
  end.

(** A [noexcept] function body: an exception that would leave it calls
    [std::terminate]. *)
Definition noexcept {A : Type} (m : M A) : M A := fun w =>
  match m w with
  | mkRun o w1 t1 => mkRun (at_noexcept o) w1 t1
  end.

(** Invoking a hook: run it on the world and log the call. *)
Definition invoke {A : Type} (h : Hook W A) (log : Outcome A -> Call) : M A :=
  fun w => let '(r, w') := h w in mkRun r w' [log r].

End Engine.

Arguments Dependencies : clear implicits.
Arguments Call : clear implicits.
Arguments Run : clear implicits.
Arguments M : clear implicits.
Arguments mkRun {W State Step A} outcome world calls.
Arguments outcome {W State Step A} r.
Arguments world {W State Step A} r.
Arguments calls {W State Step A} r.

Declare Scope engine_scope.
Delimit Scope engine_scope with engine.

Notation "x <- m ;; k" := (bind m (fun x => k))
  (at level 61, m at next level, right associativity) : engine_scope.
Notation "' p <- m ;; k" := (bind m (fun x => match x with p => k end))
  (at level 61, p pattern, m at next level, right associativity) : engine_scope.

Section EngineMethods.

Context {W State Step : Type} {Step_init : ValueInit Step}.

Local Notation Deps := (Dependencies W State Step).
Local Notation Code := (M W State Step).
Local Notation AdmHook := (State -> Step -> Hook W bool).
Local Notation ScaleHook := (Step -> float -> Step -> Hook W (bool * Step)).
Local Notation ProjectHook := (State -> Step -> Step -> Hook W (bool * Step)).

Local Open Scope engine_scope.

(** The members [cfg_] and [deps_] of [Engine]. *)
Variable cfg_ : Config.
Variable deps_ : Deps.

(** [Engine::neutral_safe]: the host's neutral step, or [Step{}] when the
    provider is null. *)
Definition neutral_safe : Code Step :=
  noexcept
    match neutral_step deps_ with
    | Some f => invoke f NeutralStep
    | None => ret value_init
    end.

(** [Engine::safe_is_admissible] as compiled with exceptions enabled.  It
    returns its [bool] result paired with the content of [out].  The pointer
    [deps_.is_admissible] is dereferenced here without a test: [enforce] has
    tested it, and hands the non-null function down as [adm]. *)
Definition safe_is_admissible (adm : AdmHook) (st : State) (dS : Step)
  : Code (bool * bool) :=
  noexcept
    (try_catch
       (out <- invoke (adm st dS) (IsAdmissible st dS) ;; ret (true, out))
       (ret (false, false))).

(** The [for] loop of [enforce_scale] with [n] iterations left and the
    current multiplier [k], followed by the statement after the loop. *)
Fixpoint scale_loop (adm : AdmHook) (scale : ScaleHook) (st : State)
    (proposed : Step) (n : nat) (k : float) : Code Step :=
  match n with
  | O => neutral_safe
  | S n' =>
      '(ok, scaled) <- invoke (scale proposed k value_init) (ScaleStep proposed k) ;;
      if negb ok then neutral_safe
      else
        '(evaluated, admissible) <- safe_is_admissible adm st scaled ;;
        if negb evaluated then neutral_safe
        else if admissible then ret scaled
        else scale_loop adm scale st proposed n' (k * scale_factor cfg_)%float
  end.

(** [Engine::enforce_scale]. *)
Definition enforce_scale (adm : AdmHook) (st : State) (proposed : Step)
  : Code Step :=
  noexcept
    match scale_step deps_ with
    | None => neutral_safe
    | Some scale =>
        scale_loop adm scale st proposed (max_scale_attempts cfg_) 1%float
    end.

(** [Engine::enforce_project]. *)
Definition enforce_project (adm : AdmHook) (st : State) (proposed : Step)
  : Code Step :=
  noexcept
    match project_step deps_ with
    | None => neutral_safe
    | Some project =>
        '(ok, projected) <-
          invoke (project st proposed value_init) (ProjectStep st proposed) ;;
        if negb ok then neutral_safe
        else
          '(evaluated, admissible) <- safe_is_admissible adm st projected ;;
          if negb evaluated then neutral_safe
          else if negb admissible then neutral_safe
          else ret projected
    end.

(** [Engine::enforce].  The [switch] covers the three enumerators, so the
    defensive [return] after it is not reached for a [Mode] value. *)
Definition enforce (st : State) (proposed : Step) : Code Step :=
  noexcept
    match is_admissible deps_, neutral_step deps_ with
    | Some adm, Some _ =>
        '(evaluated, admissible) <- safe_is_admissible adm st proposed ;;
        if negb evaluated then neutral_safe
        else if admissible then ret proposed
        else
          match mode cfg_ with
          | Reject => neutral_safe
          | Scale => enforce_scale adm st proposed
          | Project => enforce_project adm st proposed
          end
    | _, _ => neutral_safe
    end.

End EngineMethods.

Arguments neutral_safe {W State Step Step_init} deps_.
Arguments safe_is_admissible {W State Step} adm st dS.
Arguments scale_loop {W State Step Step_init} cfg_ deps_ adm scale st proposed n k.
Arguments enforce_scale {W State Step Step_init} cfg_ deps_ adm st proposed.
Arguments enforce_project {W State Step Step_init} deps_ adm st proposed.
Arguments enforce {W State Step Step_init} cfg_ deps_ st proposed.

(** ** The host side of one transition *)

Section HostLoop.

Context {W State Step : Type} {Step_init : ValueInit Step}.

Variable cfg : Config.
Variable deps : Dependencies W State Step.

(** The host's update operator, [apply_step] in the examples. *)
Variable apply_step : State -> Step -> State.

Local Open Scope engine_scope.

(** The canonical integration of [examples/host_loop_demo.cpp]:
    [S_next = apply_step(S, engine.enforce(S, proposed))]. *)
Definition host_step (st : State) (proposed : Step) : M W State Step State :=
  effective <- enforce cfg deps st proposed ;;
  ret (apply_step st effective).

(** That transition repeated over a sequence of proposals, each made at the
    state the previous one led to. *)
Fixpoint host_run (st : State) (proposals : list Step) : M W State Step State :=
  match proposals with
  | [] => ret st
  | proposed :: rest =>
      next <- host_step st proposed ;;
      host_run next rest
  end.

End HostLoop.

(** ** Hosts whose hooks are pure *)

Section PureHosts.

Context {W State Step : Type}.

(** A capability set of effect-free functions.  The predicate may throw
    ([None]); the two transforms are optional, as their slots are. *)
Record PureHooks : Type := mkPureHooks {
  p_is_admissible : State -> Step -> option bool;
  p_neutral_step : Step;
  p_scale_step : option (Step -> float -> Step -> bool * Step);
  p_project_step : option (State -> Step -> Step -> bool * Step)
}.

(** The [Dependencies] made of the functions of [h]. *)
Definition pure_deps (h : PureHooks) : Dependencies W State Step :=
  {| is_admissible := Some (fun st dS => hook_of_option (p_is_admissible h st dS));
     neutral_step := Some (pure_hook (p_neutral_step h));
     scale_step :=
       option_map (fun f input k out => pure_hook (f input k out)) (p_scale_step h);
     project_step :=
       option_map (fun f st input out => pure_hook (f st input out)) (p_project_step h) |}.

(** All four slots supplied with pure functions that always return. *)
Definition total_deps (adm : State -> Step -> bool) (neutral : Step)
    (scale : Step -> float -> Step -> bool * Step)
    (project : State -> Step -> Step -> bool * Step) : Dependencies W State Step :=
  pure_deps
    {| p_is_admissible := fun st dS => Some (adm st dS);
       p_neutral_step := neutral;
       p_scale_step := Some scale;
       p_project_step := Some project |}.

End PureHosts.

Arguments PureHooks : clear implicits.

(** ** Reading a log *)

Section Logs.

Context {State Step : Type}.

Definition is_IsAdmissible (c : Call State Step) : bool :=
  match c with IsAdmissible _ _ _ => true | _ => false end.

Definition is_ScaleStep (c : Call State Step) : bool :=
  match c with ScaleStep _ _ _ => true | _ => false end.

Definition is_ProjectStep (c : Call State Step) : bool :=
  match c with ProjectStep _ _ _ => true | _ => false end.

(** How many calls of a log satisfy [p]. *)
Definition count (p : Call State Step -> bool) (l : list (Call State Step)) : nat :=
  length (filter p l).

End Logs.

(** The multiplier of the [i]-th Scale attempt (counted from 0): [1.0]
    multiplied [i] times by the factor, in floating point. *)
Fixpoint scale_k (factor : float) (i : nat) : float :=
  match i with
  | O => 1%float
  | S j => (scale_k factor j * factor)%float
  end.

(** The Scale search as the attempts see it, for pure hooks. *)
Section ScaleSearch.

Context {State Step : Type} {Step_init : ValueInit Step}.

Variables (h : PureHooks State Step) (factor : float).
Variables (scale : Step -> float -> Step -> bool * Step).
Variables (st : State) (proposed : Step).

(** What the transform gives at attempt [i]: its flag and the candidate. *)
Definition candidate (i : nat) : bool * Step :=
  scale proposed (scale_k factor i) value_init.

(** Attempt [i] produced a candidate and the predicate gave [verdict]. *)
Definition judged (i : nat) (verdict : bool) : Prop :=
  fst (candidate i) = true /\
  p_is_admissible h st (snd (candidate i)) = Some verdict.

(** The two calls of such an attempt. *)
Definition attempt_calls (verdict : bool) (i : nat) : list (Call State Step) :=
  [ScaleStep proposed (scale_k factor i) (Returned (candidate i));
   IsAdmissible st (snd (candidate i)) (Returned verdict)].

End ScaleSearch.

(** ** The scalar host of [tests/test_core.cpp] *)

Module Scalar.

Local Open Scope float_scope.

(** [std::isfinite]. *)
Definition is_finite (x : float) : bool := PrimFloat.is_finite x.

Definition LIMIT : float := 1.0.

(** [admissible_limit]. *)
Definition admissible_limit (S dS : float) : bool :=
  if negb (is_finite S) || negb (is_finite dS) then false
  else
    let next := S + dS in
    if negb (is_finite next) then false
    else abs next <=? 1.0.

(** [neutral_zero]. *)
Definition neutral_zero : float := 0.0.

(** [scale_mul]: the flag it returns and the content of [out] afterwards. *)
Definition scale_mul (input k out : float) : bool * float :=
  if negb (is_finite input) || negb (is_finite k) then (false, out)
  else
    let out := input * k in
    (is_finite out, out).

(** [project_clamp]. *)
Definition project_clamp (S dS out : float) : bool * float :=
  if negb (is_finite S) || negb (is_finite dS) then (false, out)
  else
    let next := S + dS in
    if negb (is_finite next) then (false, out)
    else
      let next := if LIMIT <? next then LIMIT else next in
      let next := if next <? - LIMIT then - LIMIT else next in
      let out := next - S in
      (is_finite out, out).

(** The capability set the tests build: [scale] and [project] say which of
    the two transform slots are filled. *)
Definition hooks (scale project : bool) : PureHooks float float :=
  {| p_is_admissible := fun S dS => Some (admissible_limit S dS);
     p_neutral_step := neutral_zero;
     p_scale_step := if scale then Some scale_mul else None;
     p_project_step := if project then Some project_clamp else None |}.

(** [{&admissible_limit, &neutral_zero, &scale_mul, nullptr}]. *)
Definition deps_scale : Dependencies unit float float := pure_deps (hooks true false).

(** [{&admissible_limit, &neutral_zero, nullptr, &project_clamp}]. *)
Definition deps_project : Dependencies unit float float := pure_deps (hooks false true).

(** A capability set whose neutral provider was left null; the other three
    slots are filled. *)
Definition deps_null_neutral : Dependencies unit float float :=
  {| is_admissible := Some (fun S dS => pure_hook (admissible_limit S dS));
     neutral_step := None;
     scale_step := Some (fun input k out => pure_hook (scale_mul input k out));
     project_step := Some (fun S input out => pure_hook (project_clamp S input out)) |}.

(** A capability set without the predicate. *)
Definition deps_null_predicate : Dependencies unit float float :=
  {| is_admissible := None;
     neutral_step := Some (pure_hook neutral_zero);
     scale_step := Some (fun input k out => pure_hook (scale_mul input k out));
     project_step := Some (fun S input out => pure_hook (project_clamp S input out)) |}.

(** A predicate that throws on the step [fragile] and is [admissible_limit]
    elsewhere, with all the hooks of the tests. *)
Definition hooks_throwing_at (fragile : float) : PureHooks float float :=
  {| p_is_admissible :=
       fun S dS => if dS =? fragile then None else Some (admissible_limit S dS);
     p_neutral_step := neutral_zero;
     p_scale_step := Some scale_mul;
     p_project_step := Some project_clamp |}.

(** The capability set of the tests with a Scale transform that throws. *)
Definition deps_scale_throws : Dependencies unit float float :=
  {| is_admissible := Some (fun S dS => pure_hook (admissible_limit S dS));
     neutral_step := Some (pure_hook neutral_zero);
     scale_step := Some (fun input k out => throwing_hook);
     project_step := None |}.

(** [apply_step] of [examples/host_loop_demo.cpp] and
    [tests/test_integration.cpp]. *)
Definition apply_step (S dS_eff : float) : float := S + dS_eff.

(** The state lies in the domain the predicate protects: it is finite and
    [fabs(S) <= 1.0]. *)
Definition in_domain (S : float) : bool := is_finite S && (abs S <=? LIMIT).

End Scalar.

(** ** The counting host of [tests/test_integration.cpp] *)

Module Counted.

(** [admissible_counted]: the verdict of [admissible_limit], and one more in
    the global [g_eval_calls], which is the whole world of this host. *)
Definition admissible_counted (S dS : float) : Hook nat bool :=
  fun g_eval_calls => (Returned (Scalar.admissible_limit S dS), Nat.succ g_eval_calls).

(** The capability set of the integration test. *)
Definition deps : Dependencies nat float float :=
  {| is_admissible := Some admissible_counted;
     neutral_step := Some (pure_hook Scalar.neutral_zero);
     scale_step := Some (fun input k out => pure_hook (Scalar.scale_mul input k out));
     project_step := None |}.

(** A predicate that breaks the purity contract (it is not in the
    repository): it admits whatever it is asked first, and nothing after. *)
Definition admissible_first_call (S dS : float) : Hook nat bool :=
  fun asked => (Returned (Nat.eqb asked 0), Nat.succ asked).

Definition deps_first_call : Dependencies nat float float :=
  {| is_admissible := Some admissible_first_call;
     neutral_step := Some (pure_hook Scalar.neutral_zero);
     scale_step := None;
     project_step := None |}.

End Counted.

(** ** Spec-side vocabulary *)

(** The bound on admissibility evaluations of one [enforce] call. *)
Definition evaluation_bound (cfg : Config) : nat :=
  match mode cfg with
  | Scale => 1 + max_scale_attempts cfg
  | Reject | Project => 2
  end.

(** A property that holds in each of the three modes. *)
Definition forall_modes (P : Mode -> Prop) : Prop :=
  P Reject /\ P Scale /\ P Project.

(** A bound on all hook calls of one [enforce] call. *)
Definition call_bound (cfg : Config) : nat :=
  match mode cfg with
  | Reject => 2
  | Scale => 2 + 2 * max_scale_attempts cfg
  | Project => 4
  end.

Definition any_call {State Step : Type} (c : Call State Step) : bool := true.

(** Code that makes at most [b] calls satisfying [p], from any world. *)
Definition bounded {W State Step A : Type} (p : Call State Step -> bool) (b : nat)
    (m : M W State Step A) : Prop :=
  forall w, count p (calls (m w)) <= b.

(** A hook that always returns a value. *)
Definition returns {W A : Type} (h : Hook W A) : Prop :=
  forall w, exists a, fst (h w) = Returned a.

(** A hook that returns a value or throws, but does not end the program. *)
Definition returns_or_throws {W A : Type} (h : Hook W A) : Prop :=
  forall w, fst (h w) <> Terminated.

(** Hosts whose predicate may throw and whose other hooks always return. *)
Definition well_behaved {W State Step : Type} (deps : Dependencies W State Step) : Prop :=
  (forall adm, is_admissible deps = Some adm ->
     forall st dS, returns_or_throws (adm st dS)) /\
  (forall nf, neutral_step deps = Some nf -> returns nf) /\
  (forall scale, scale_step deps = Some scale ->
     forall input k out, returns (scale input k out)) /\
  (forall project, project_step deps = Some project ->
     forall st input out, returns (project st input out)).

(** Code that returns a value from every world. *)
Definition returning {W State Step A : Type} (m : M W State Step A) : Prop :=
  forall w, exists a, outcome (m w) = Returned a.

(** In the log [l] of a run with outcome [o], a predicate call that threw is
    followed by one call of the neutral provider and nothing more, and [o] is
    what that call gave. *)
Definition throw_ends {State Step : Type} (l : list (Call State Step))
    (o : Outcome Step) : Prop :=
  forall pre st dS post,
    l = pre ++ IsAdmissible st dS Thrown :: post ->
    exists r, post = [NeutralStep r] /\ o = at_noexcept r.

(** A run in which an exception of the predicate was handled that way. *)
Definition throw_handled {W State Step : Type} (r : Run W State Step Step) : Prop :=
  throw_ends (calls r) (outcome r).

(** A call that is not a predicate call that threw. *)
Definition no_throw {State Step : Type} (c : Call State Step) : Prop :=
  forall st dS, c <> IsAdmissible st dS Thrown.

(** The step [e] is admissible from [st] or is the neutral step of [h]. *)
Definition admissible_or_neutral {State Step : Type} (h : PureHooks State Step)
    (st : State) (e : Step) : Prop :=
  p_is_admissible h st e = Some true \/ e = p_neutral_step h.

(** A run that returns a step admissible from [st], or the neutral step. *)
Definition safe_run {W State Step : Type} (h : PureHooks State Step) (st : State)
    (r : Run W State Step Step) : Prop :=
  exists e, outcome r = Returned e /\ admissible_or_neutral h st e.

(** Code whose outcome and log do not depend on the world it starts from,
    and which leaves that world as it found it. *)
Definition uniform {W State Step A : Type} (m : M W State Step A) : Prop :=
  forall w w', m w' = mkRun (outcome (m w)) w' (calls (m w)).

(** A call after which [enforce] goes on: a verdict or an exception of the
    predicate that did not admit, or a transform that returned. *)
Definition ordinary {State Step : Type} (c : Call State Step) : bool :=
  match c with
  | IsAdmissible _ _ (Returned false) | IsAdmissible _ _ Thrown => true
  | ScaleStep _ _ (Returned _) | ProjectStep _ _ (Returned _) => true
  | _ => false
  end.

(** A call that ends the program: the predicate ended it, or a transform
    threw or ended it. *)
Definition fatal {State Step : Type} (c : Call State Step) : bool :=
  match c with
  | IsAdmissible _ _ Terminated => true
  | ScaleStep _ _ (Thrown | Terminated) | ProjectStep _ _ (Thrown | Terminated) => true
  | _ => false
  end.

(** A transform or the neutral provider threw. *)
Definition uncaught {State Step : Type} (c : Call State Step) : bool :=
  match c with
  | NeutralStep Thrown | ScaleStep _ _ Thrown | ProjectStep _ _ Thrown => true
  | _ => false
  end.

(** The three ways a run of [enforce] for the state [st] ends, after a
    stretch of ordinary calls: the predicate admits the step that is
    returned; or [neutral_safe] is run and decides the outcome; or a fatal
    call ends the program. *)
Definition exit_of {W State Step : Type} {Step_init : ValueInit Step}
    (deps : Dependencies W State Step) (st : State) (r : Run W State Step Step) : Prop :=
  exists body,
    forallb ordinary body = true /\
    ((exists e,
        outcome r = Returned e /\
        calls r = body ++ [IsAdmissible st e (Returned true)]) \/
     (exists w',
        outcome r = outcome (neutral_safe deps w') /\
        calls r = body ++ calls (neutral_safe deps w')) \/
     (exists c,
        fatal c = true /\
        at_noexcept (outcome r) = Terminated /\
        calls r = body ++ [c])).

(** Where the step [e] that [enforce] returns comes from, on a pure host: it
    is the proposal, admitted as it stands; or a Scale candidate of an attempt
    within the bound, admitted; or the projected step, admitted; or the
    neutral step. *)
Definition provenance {State Step : Type} {Step_init : ValueInit Step}
    (h : PureHooks State Step) (cfg : Config) (st : State) (proposed e : Step) : Prop :=
  (e = proposed /\ p_is_admissible h st proposed = Some true) \/
  (mode cfg = Scale /\
   exists scale i,
     p_scale_step h = Some scale /\
     i < max_scale_attempts cfg /\
     judged h (scale_factor cfg) scale st proposed i true /\
     e = snd (candidate (scale_factor cfg) scale proposed i)) \/
  (mode cfg = Project /\
   exists project,
     p_project_step h = Some project /\
     project st proposed value_init = (true, e) /\
     p_is_admissible h st e = Some true) \/
  e = p_neutral_step h.

(** The hooks of [deps] may have effects on the world, but what they return
    does not depend on it: they answer as the pure functions of [h], and the
    same slots are filled. *)
Definition answers_as {W State Step : Type} (deps : Dependencies W State Step)
    (h : PureHooks State Step) : Prop :=
  (exists adm,
     is_admissible deps = Some adm /\
     forall st dS w, fst (adm st dS w) = outcome_of_option (p_is_admissible h st dS)) /\
  (exists nf,
     neutral_step deps = Some nf /\
     forall w, fst (nf w) = Returned (p_neutral_step h)) /\
  match scale_step deps, p_scale_step h with
  | Some scale, Some pure_scale =>
      forall input k out w, fst (scale input k out w) = Returned (pure_scale input k out)
  | None, None => True
  | _, _ => False
  end /\
  match project_step deps, p_project_step h with
  | Some project, Some pure_project =>
      forall st input out w,
        fst (project st input out w) = Returned (pure_project st input out)
  | None, None => True
  | _, _ => False
  end.

(** Two pieces of engine code, over two hosts, that end alike and log the
    same calls, from whatever worlds they start. *)
Definition alike {W W' State Step A : Type} (m : M W State Step A)
    (m' : M W' State Step A) : Prop :=
  forall w w', outcome (m w) = outcome (m' w') /\ calls (m w) = calls (m' w').


(** The call [c] hands to the host the state and the proposal that
    [enforce] was given: the predicate and the Project transform receive
    [st], the two transforms receive [proposed]. *)
Definition hands_over {State Step : Type} (st : State) (proposed : Step)
    (c : Call State Step) : Prop :=
  match c with
  | IsAdmissible st' _ _ => st' = st
  | NeutralStep _ => True
  | ScaleStep input _ _ => input = proposed
  | ProjectStep st' input _ => st' = st /\ input = proposed
  end.

(** The multipliers of the [scale_step] calls of a log, in order. *)
Definition multipliers {State Step : Type} (l : list (Call State Step)) : list float :=
  flat_map (fun c => match c with ScaleStep _ k _ => [k] | _ => [] end) l.

(** * Properties *)

(** ** Equations of the engine's building blocks *)

Section Equations.

Context {W State Step : Type} {Step_init : ValueInit Step}.

Implicit Types (deps : Dependencies W State Step) (cfg : Config) (w : W).

Lemma count_app (p : Call State Step -> bool) (l1 l2 : list (Call State Step)) :
  count p (l1 ++ l2) = count p l1 + count p l2.
Proof.
  unfold count. rewrite filter_app. apply length_app.
Qed.

Lemma count_any_call (l : list (Call State Step)) : count any_call l = length l.
Proof.
  unfold count. induction l as [|c l IH]; simpl; [reflexivity|].
  rewrite IH. reflexivity.
Qed.

Lemma bind_returned {A B : Type} (m : M W State Step A) (f : A -> M W State Step B) w a w1 t1 :
  m w = mkRun (Returned a) w1 t1 ->
  bind m f w = mkRun (outcome (f a w1)) (world (f a w1)) (t1 ++ calls (f a w1)).
Proof.
  intros E. unfold bind. rewrite E. destruct (f a w1). reflexivity.
Qed.

Lemma noexcept_run {A : Type} (m : M W State Step A) w :
  noexcept m w = mkRun (at_noexcept (outcome (m w))) (world (m w)) (calls (m w)).
Proof.
  unfold noexcept. destruct (m w). reflexivity.
Qed.

Lemma at_noexcept_idem {A : Type} (o : Outcome A) :
  at_noexcept (at_noexcept o) = at_noexcept o.
Proof.
  destruct o; reflexivity.
Qed.

Lemma neutral_safe_run deps w :
  neutral_safe deps w =
  match neutral_step deps with
  | Some f => mkRun (at_noexcept (fst (f w))) (snd (f w)) [NeutralStep (fst (f w))]
  | None => mkRun (Returned value_init) w []
  end.
Proof.
  unfold neutral_safe, noexcept, invoke, ret.
  destruct (neutral_step deps) as [f|]; [|reflexivity].
  destruct (f w) as [[n| |] w1]; reflexivity.
Qed.

Lemma safe_is_admissible_run (adm : State -> Step -> Hook W bool) (st : State) (dS : Step) w :
  safe_is_admissible adm st dS w =
  mkRun
    match fst (adm st dS w) with
    | Returned b => Returned (true, b)
    | Thrown => Returned (false, false)
    | Terminated => Terminated
    end
    (snd (adm st dS w))
    [IsAdmissible st dS (fst (adm st dS w))].
Proof.
  unfold safe_is_admissible, noexcept, try_catch, bind, invoke, ret.
  destruct (adm st dS w) as [[b| |] w1]; reflexivity.
Qed.

Lemma scale_loop_S cfg deps (adm : State -> Step -> Hook W bool)
    (scale : Step -> float -> Step -> Hook W (bool * Step)) (st : State)
    (proposed : Step) n k :
  scale_loop cfg deps adm scale st proposed (S n) k =
  bind (invoke (scale proposed k value_init) (ScaleStep proposed k))
       (fun x =>
          let (ok, scaled) := x in
          if negb ok then neutral_safe deps
          else
            bind (safe_is_admissible adm st scaled)
                 (fun y =>
                    let (evaluated, admissible) := y in
                    if negb evaluated then neutral_safe deps
                    else if admissible then ret scaled
                    else scale_loop cfg deps adm scale st proposed n
                           (k * scale_factor cfg)%float)).
Proof.
  reflexivity.
Qed.

Lemma noexcept_neutral_safe deps w :
  noexcept (neutral_safe deps) w = neutral_safe deps w.
Proof.
  rewrite noexcept_run, neutral_safe_run.
  destruct (neutral_step deps) as [f|]; simpl; [|reflexivity].
  rewrite at_noexcept_idem. reflexivity.
Qed.

End Equations.

(** ** The decision procedure on arbitrary hosts *)

Section AnyHost.

Context {W State Step : Type} {Step_init : ValueInit Step}.

Implicit Types (deps : Dependencies W State Step) (cfg : Config) (w : W).

Ltac unfold_engine :=
  unfold enforce, enforce_scale, enforce_project, safe_is_admissible,
    neutral_safe, noexcept, try_catch, bind, invoke, ret.

(** C2 (pass-through).  With the predicate and the neutral provider present,
    if the predicate returns [true] for [(st, proposed)] then [enforce]
    returns [proposed] itself, whatever the mode and the Scale bounds; the
    predicate call is the only hook call it makes. *)
Theorem enforce_pass_through cfg deps adm nf st proposed w w1 :
  is_admissible deps = Some adm ->
  neutral_step deps = Some nf ->
  adm st proposed w = (Returned true, w1) ->
  enforce cfg deps st proposed w =
  mkRun (Returned proposed) w1 [IsAdmissible st proposed (Returned true)].
Proof.
  intros Hadm Hnf Hcall.
  unfold_engine. rewrite Hadm, Hnf, Hcall. reflexivity.
Qed.

(** Reject mode on a proposal the predicate rejects. *)
Lemma enforce_reject_run cfg deps adm nf st proposed w w1 n w2 :
  mode cfg = Reject ->
  is_admissible deps = Some adm ->
  neutral_step deps = Some nf ->
  adm st proposed w = (Returned false, w1) ->
  nf w1 = (Returned n, w2) ->
  enforce cfg deps st proposed w =
  mkRun (Returned n) w2
        [IsAdmissible st proposed (Returned false); NeutralStep (Returned n)].
Proof.
  intros Hmode Hadm Hnf Hcall Hneutral.
  unfold_engine. rewrite Hadm, Hnf, Hcall, Hmode. simpl.
  rewrite Hneutral. reflexivity.
Qed.

(** With the neutral provider null, [enforce] returns [Step{}] and calls
    nothing. *)
Lemma enforce_without_neutral cfg deps st proposed w :
  neutral_step deps = None ->
  enforce cfg deps st proposed w = mkRun (Returned value_init) w [].
Proof.
  intros Hnf. unfold_engine. rewrite Hnf.
  destruct (is_admissible deps); reflexivity.
Qed.

(** With the predicate null, [enforce] is one call of the neutral provider. *)
Lemma enforce_without_predicate cfg deps nf st proposed w :
  is_admissible deps = None ->
  neutral_step deps = Some nf ->
  enforce cfg deps st proposed w =
  mkRun (at_noexcept (fst (nf w))) (snd (nf w)) [NeutralStep (fst (nf w))].
Proof.
  intros Hadm Hnf. unfold_engine. rewrite Hadm, Hnf.
  destruct (nf w) as [[n| |] w1]; reflexivity.
Qed.

(** C7 (missing capability).  (1) If the predicate or the neutral provider is
    null, [enforce] is [neutral_safe] and nothing else: it returns the
    provider's step after that one call, or [Step{}] after no call at all when
    the provider is the null one.  (2) On a proposal the predicate rejects, in
    Scale mode without [scale_step] or in Project mode without
    [project_step], [enforce] returns the provider's step, and no transform is
    called. *)
Theorem enforce_missing_capability cfg deps st proposed w :
  (is_admissible deps = None \/ neutral_step deps = None ->
   enforce cfg deps st proposed w = neutral_safe deps w /\
   (forall nf n w1, neutral_step deps = Some nf -> nf w = (Returned n, w1) ->
      enforce cfg deps st proposed w = mkRun (Returned n) w1 [NeutralStep (Returned n)]) /\
   (neutral_step deps = None ->
      enforce cfg deps st proposed w = mkRun (Returned value_init) w [])) /\
  (forall adm nf w1 n w2,
     is_admissible deps = Some adm ->
     neutral_step deps = Some nf ->
     adm st proposed w = (Returned false, w1) ->
     nf w1 = (Returned n, w2) ->
     (mode cfg = Scale /\ scale_step deps = None) \/
     (mode cfg = Project /\ project_step deps = None) ->
     enforce cfg deps st proposed w =
     mkRun (Returned n) w2
           [IsAdmissible st proposed (Returned false); NeutralStep (Returned n)]).
Proof.
  split.
  - intros Hnull. split; [|split].
    + rewrite <- noexcept_neutral_safe. unfold enforce.
      destruct Hnull as [E|E]; rewrite E; [|destruct (is_admissible deps)]; reflexivity.
    + intros nf n w1 Hnf Hcall.
      destruct Hnull as [E|E]; [|congruence].
      rewrite (enforce_without_predicate cfg deps nf st proposed w E Hnf), Hcall.
      reflexivity.
    + apply enforce_without_neutral.
  - intros adm nf w1 n w2 Hadm Hnf Hcall Hneutral Hmissing.
    unfold_engine. rewrite Hadm, Hnf, Hcall. simpl.
    destruct Hmissing as [[Hmode E]|[Hmode E]]; rewrite Hmode, E; simpl;
      rewrite Hneutral; reflexivity.
Qed.

(** *** Counting calls *)

Implicit Types (p : Call State Step -> bool) (adm : State -> Step -> Hook W bool).

Lemma bounded_le {A : Type} p b b' (m : M W State Step A) :
  bounded p b m -> b <= b' -> bounded p b' m.
Proof.
  intros Hm Hle w. specialize (Hm w). lia.
Qed.

Lemma bounded_ret {A : Type} p (a : A) : bounded p 0 (@ret W State Step A a).
Proof.
  intros w. reflexivity.
Qed.

Lemma bounded_bind {A B : Type} p b1 b2 (m : M W State Step A) (f : A -> M W State Step B) :
  bounded p b1 m -> (forall a, bounded p b2 (f a)) -> bounded p (b1 + b2) (bind m f).
Proof.
  intros Hm Hf w. unfold bind. specialize (Hm w).
  destruct (m w) as [[a| |] w1 t1]; simpl in *; try lia.
  specialize (Hf a w1). destruct (f a w1) as [o w2 t2]; simpl in *.
  rewrite count_app. lia.
Qed.

Lemma bounded_noexcept {A : Type} p b (m : M W State Step A) :
  bounded p b m -> bounded p b (noexcept m).
Proof.
  intros Hm w. rewrite noexcept_run. apply Hm.
Qed.

Lemma bounded_invoke {A : Type} p (h : Hook W A) (log : Outcome A -> Call State Step) :
  bounded p 1 (invoke h log).
Proof.
  intros w. unfold invoke. destruct (h w) as [r w1]. unfold count. simpl.
  destruct (p (log r)); simpl; lia.
Qed.

Lemma bounded_invoke_other {A : Type} p (h : Hook W A) (log : Outcome A -> Call State Step) :
  (forall r, p (log r) = false) -> bounded p 0 (invoke h log).
Proof.
  intros Hp w. unfold invoke. destruct (h w) as [r w1]. unfold count. simpl.
  rewrite Hp. reflexivity.
Qed.

Lemma bounded_neutral_safe p deps :
  (forall r, p (NeutralStep r) = false) -> bounded p 0 (neutral_safe deps).
Proof.
  intros Hp. unfold neutral_safe. apply bounded_noexcept.
  destruct (neutral_step deps) as [f|].
  - apply bounded_invoke_other. exact Hp.
  - apply bounded_ret.
Qed.

Lemma bounded_safe_is_admissible p adm st dS :
  bounded p 1 (safe_is_admissible adm st dS).
Proof.
  intros w. rewrite safe_is_admissible_run. unfold count. simpl.
  destruct (p (IsAdmissible st dS (fst (adm st dS w)))); simpl; lia.
Qed.

Lemma bounded_safe_is_admissible_other p adm st dS :
  (forall r, p (IsAdmissible st dS r) = false) ->
  bounded p 0 (safe_is_admissible adm st dS).
Proof.
  intros Hp w. rewrite safe_is_admissible_run. unfold count. simpl.
  rewrite Hp. reflexivity.
Qed.

Lemma bounded_neutral_safe_once p deps : bounded p 1 (neutral_safe deps).
Proof.
  unfold neutral_safe. apply bounded_noexcept.
  destruct (neutral_step deps) as [f|].
  - apply bounded_invoke.
  - apply (bounded_le p 0); [apply bounded_ret | lia].
Qed.

Ltac no_such_call :=
  apply (bounded_le _ 0); [first [apply bounded_neutral_safe; reflexivity | apply bounded_ret] | lia].

Lemma scale_loop_evaluations cfg deps adm scale st proposed n k :
  bounded is_IsAdmissible n (scale_loop cfg deps adm scale st proposed n k).
Proof.
  revert k. induction n as [|n IH]; intros k; simpl.
  - apply bounded_neutral_safe. reflexivity.
  - apply (bounded_bind _ 0 (S n)).
    + apply bounded_invoke_other. reflexivity.
    + intros [[|] scaled]; simpl; [|no_such_call].
      apply (bounded_bind _ 1 n); [apply bounded_safe_is_admissible|].
      intros [[|] [|]]; simpl; [no_such_call | apply IH | no_such_call | no_such_call].
Qed.

Lemma scale_loop_attempts cfg deps adm scale st proposed n k :
  bounded is_ScaleStep n (scale_loop cfg deps adm scale st proposed n k).
Proof.
  revert k. induction n as [|n IH]; intros k; simpl.
  - apply bounded_neutral_safe. reflexivity.
  - apply (bounded_bind _ 1 n); [apply bounded_invoke|].
    intros [[|] scaled]; simpl; [|no_such_call].
    apply (bounded_bind _ 0 n);
      [apply bounded_safe_is_admissible_other; reflexivity|].
    intros [[|] [|]]; simpl; [no_such_call | apply IH | no_such_call | no_such_call].
Qed.

Lemma scale_loop_calls cfg deps adm scale st proposed n k :
  bounded any_call (1 + 2 * n) (scale_loop cfg deps adm scale st proposed n k).
Proof.
  revert k. induction n as [|n IH]; intros k; simpl.
  - apply bounded_neutral_safe_once.
  - apply (bounded_le _ (1 + (1 + (1 + 2 * n)))); [|lia].
    apply bounded_bind; [apply bounded_invoke|].
    intros [[|] scaled]; simpl;
      [|apply (bounded_le _ 1); [apply bounded_neutral_safe_once|lia]].
    apply (bounded_le _ (1 + (1 + 2 * n))); [|lia].
    apply bounded_bind; [apply bounded_safe_is_admissible|].
    intros [[|] [|]]; simpl.
    + apply (bounded_le _ 0); [apply bounded_ret|lia].
    + apply IH.
    + apply (bounded_le _ 1); [apply bounded_neutral_safe_once|lia].
    + apply (bounded_le _ 1); [apply bounded_neutral_safe_once|lia].
Qed.

Lemma enforce_scale_evaluations cfg deps adm st proposed :
  bounded is_IsAdmissible (max_scale_attempts cfg) (enforce_scale cfg deps adm st proposed).
Proof.
  unfold enforce_scale. apply bounded_noexcept.
  destruct (scale_step deps) as [scale|]; [apply scale_loop_evaluations|no_such_call].
Qed.

Lemma enforce_scale_attempts cfg deps adm st proposed :
  bounded is_ScaleStep (max_scale_attempts cfg) (enforce_scale cfg deps adm st proposed).
Proof.
  unfold enforce_scale. apply bounded_noexcept.
  destruct (scale_step deps) as [scale|]; [apply scale_loop_attempts|no_such_call].
Qed.

Lemma enforce_scale_calls cfg deps adm st proposed :
  bounded any_call (1 + 2 * max_scale_attempts cfg) (enforce_scale cfg deps adm st proposed).
Proof.
  unfold enforce_scale. apply bounded_noexcept.
  destruct (scale_step deps) as [scale|]; [apply scale_loop_calls|].
  apply (bounded_le _ 1); [apply bounded_neutral_safe_once|lia].
Qed.

Lemma enforce_project_evaluations deps adm st proposed :
  bounded is_IsAdmissible 1 (enforce_project deps adm st proposed).
Proof.
  unfold enforce_project. apply bounded_noexcept.
  destruct (project_step deps) as [project|]; [|no_such_call].
  apply (bounded_bind _ 0 1); [apply bounded_invoke_other; reflexivity|].
  intros [[|] projected]; simpl; [|no_such_call].
  apply (bounded_bind _ 1 0); [apply bounded_safe_is_admissible|].
  intros [[|] [|]]; simpl;
    first [apply bounded_ret | apply bounded_neutral_safe; reflexivity].
Qed.

Lemma enforce_project_calls deps adm st proposed :
  bounded any_call 3 (enforce_project deps adm st proposed).
Proof.
  unfold enforce_project. apply bounded_noexcept.
  destruct (project_step deps) as [project|];
    [|apply (bounded_le _ 1); [apply bounded_neutral_safe_once|lia]].
  apply (bounded_bind _ 1 2); [apply bounded_invoke|].
  intros [[|] projected]; simpl;
    [|apply (bounded_le _ 1); [apply bounded_neutral_safe_once|lia]].
  apply (bounded_bind _ 1 1); [apply bounded_safe_is_admissible|].
  intros [[|] [|]]; simpl;
    first [apply bounded_neutral_safe_once
          | apply (bounded_le _ 0); [apply bounded_ret|lia]].
Qed.

Lemma enforce_project_projections deps adm st proposed :
  bounded is_ProjectStep 1 (enforce_project deps adm st proposed).
Proof.
  unfold enforce_project. apply bounded_noexcept.
  destruct (project_step deps) as [project|]; [|no_such_call].
  apply (bounded_bind _ 1 0); [apply bounded_invoke|].
  intros [[|] projected]; simpl; [|apply bounded_neutral_safe; reflexivity].
  apply (bounded_bind _ 0 0);
    [apply bounded_safe_is_admissible_other; reflexivity|].
  intros [[|] [|]]; simpl;
    first [apply bounded_ret | apply bounded_neutral_safe; reflexivity].
Qed.

(** Whatever the host, the Scale transform is called at most
    [max_scale_attempts] times in one [enforce] call. *)
Lemma enforce_attempts cfg deps st proposed :
  bounded is_ScaleStep (max_scale_attempts cfg) (enforce cfg deps st proposed).
Proof.
  unfold enforce. apply bounded_noexcept.
  destruct (is_admissible deps) as [adm|];
    [destruct (neutral_step deps) as [nf|]|]; try no_such_call.
  apply (bounded_bind _ 0 (max_scale_attempts cfg));
    [apply bounded_safe_is_admissible_other; reflexivity|].
  intros [[|] [|]]; simpl; try no_such_call.
  destruct (mode cfg).
  - no_such_call.
  - apply enforce_scale_attempts.
  - apply (bounded_le _ 0); [|lia].
    unfold enforce_project. apply bounded_noexcept.
    destruct (project_step deps) as [project|];
      [|apply bounded_neutral_safe; reflexivity].
    apply (bounded_bind _ 0 0); [apply bounded_invoke_other; reflexivity|].
    intros [[|] projected]; simpl; [|apply bounded_neutral_safe; reflexivity].
    apply (bounded_bind _ 0 0);
      [apply bounded_safe_is_admissible_other; reflexivity|].
    intros [[|] [|]]; simpl;
      first [apply bounded_ret | apply bounded_neutral_safe; reflexivity].
Qed.

(** Whatever the host, the Project transform is called at most once in one
    [enforce] call. *)
Lemma enforce_projections cfg deps st proposed :
  bounded is_ProjectStep 1 (enforce cfg deps st proposed).
Proof.
  unfold enforce. apply bounded_noexcept.
  destruct (is_admissible deps) as [adm|];
    [destruct (neutral_step deps) as [nf|]|]; try no_such_call.
  apply (bounded_bind _ 0 1);
    [apply bounded_safe_is_admissible_other; reflexivity|].
  intros [[|] [|]]; simpl; try no_such_call.
  destruct (mode cfg).
  - no_such_call.
  - apply (bounded_le _ 0); [|lia].
    unfold enforce_scale. apply bounded_noexcept.
    destruct (scale_step deps) as [scale|];
      [|apply bounded_neutral_safe; reflexivity].
    generalize 1%float. induction (max_scale_attempts cfg) as [|n IH]; intros k; simpl.
    + apply bounded_neutral_safe. reflexivity.
    + apply (bounded_bind _ 0 0); [apply bounded_invoke_other; reflexivity|].
      intros [[|] scaled]; simpl; [|apply bounded_neutral_safe; reflexivity].
      apply (bounded_bind _ 0 0);
        [apply bounded_safe_is_admissible_other; reflexivity|].
      intros [[|] [|]]; simpl;
        first [apply bounded_ret | apply IH | apply bounded_neutral_safe; reflexivity].
  - apply enforce_project_projections.
Qed.

Lemma enforce_evaluations cfg deps st proposed :
  bounded is_IsAdmissible (evaluation_bound cfg) (enforce cfg deps st proposed).
Proof.
  unfold enforce, evaluation_bound. apply bounded_noexcept.
  destruct (is_admissible deps) as [adm|];
    [destruct (neutral_step deps) as [nf|]|]; try no_such_call.
  apply (bounded_le _ (1 + match mode cfg with Scale => max_scale_attempts cfg | _ => 1 end));
    [|destruct (mode cfg); lia].
  apply bounded_bind; [apply bounded_safe_is_admissible|].
  intros [[|] [|]]; simpl; try no_such_call.
  destruct (mode cfg).
  - no_such_call.
  - apply enforce_scale_evaluations.
  - apply enforce_project_evaluations.
Qed.

Lemma enforce_calls cfg deps st proposed :
  bounded any_call (call_bound cfg) (enforce cfg deps st proposed).
Proof.
  unfold enforce, call_bound. apply bounded_noexcept.
  destruct (is_admissible deps) as [adm|];
    [destruct (neutral_step deps) as [nf|]|];
    try (apply (bounded_le _ 1); [apply bounded_neutral_safe_once|destruct (mode cfg); lia]).
  apply (bounded_le _
           (1 + match mode cfg with
                | Reject => 1
                | Scale => 1 + 2 * max_scale_attempts cfg
                | Project => 3
                end));
    [|destruct (mode cfg); lia].
  apply bounded_bind; [apply bounded_safe_is_admissible|].
  intros [[|] [|]]; simpl;
    try (apply (bounded_le _ 1); [apply bounded_neutral_safe_once|destruct (mode cfg); lia]).
  - apply (bounded_le _ 0); [apply bounded_ret|lia].
  - destruct (mode cfg).
    + apply bounded_neutral_safe_once.
    + apply enforce_scale_calls.
    + apply enforce_project_calls.
Qed.

(** C6 (boundedness).  [enforce] is a total function of the configuration,
    the hooks, the state, the proposal and the world: the Scale loop recurses
    on the attempts left, never on the multiplier, so no [scale_factor] can
    keep it running.  From any world and with any hooks, one call evaluates
    the predicate at most [1 + max_scale_attempts] times in Scale mode and at
    most twice in Reject and Project mode, and makes at most [call_bound cfg]
    hook calls in all. *)
Theorem enforce_bounded cfg deps st proposed w :
  count is_IsAdmissible (calls (enforce cfg deps st proposed w)) <=
    match mode cfg with
    | Scale => 1 + max_scale_attempts cfg
    | Reject | Project => 2
    end /\
  length (calls (enforce cfg deps st proposed w)) <= call_bound cfg.
Proof.
  split.
  - apply enforce_evaluations.
  - rewrite <- count_any_call. apply enforce_calls.
Qed.

(** *** Returning *)

Lemma returning_ret {A : Type} (a : A) : returning (@ret W State Step A a).
Proof.
  intros w. exists a. reflexivity.
Qed.

Lemma returning_bind {A B : Type} (m : M W State Step A) (f : A -> M W State Step B) :
  returning m -> (forall a, returning (f a)) -> returning (bind m f).
Proof.
  intros Hm Hf w. unfold bind. destruct (Hm w) as [a Ha].
  destruct (m w) as [o w1 t1]. simpl in Ha. subst o.
  destruct (Hf a w1) as [b Hb]. destruct (f a w1) as [o w2 t2].
  exists b. exact Hb.
Qed.

Lemma returning_noexcept {A : Type} (m : M W State Step A) :
  returning m -> returning (noexcept m).
Proof.
  intros Hm w. destruct (Hm w) as [a Ha]. exists a.
  rewrite noexcept_run. simpl. rewrite Ha. reflexivity.
Qed.

Lemma returning_invoke {A : Type} (h : Hook W A) (log : Outcome A -> Call State Step) :
  returns h -> returning (invoke h log).
Proof.
  intros Hh w. destruct (Hh w) as [a Ha]. exists a.
  unfold invoke. destruct (h w) as [r w1]. exact Ha.
Qed.

Lemma returning_neutral_safe deps :
  (forall nf, neutral_step deps = Some nf -> returns nf) ->
  returning (neutral_safe deps).
Proof.
  intros Hnf. unfold neutral_safe. apply returning_noexcept.
  destruct (neutral_step deps) as [nf|].
  - apply returning_invoke. apply Hnf. reflexivity.
  - apply returning_ret.
Qed.

Lemma returning_safe_is_admissible adm st dS :
  returns_or_throws (adm st dS) -> returning (safe_is_admissible adm st dS).
Proof.
  intros Hadm w. rewrite safe_is_admissible_run. specialize (Hadm w). simpl.
  destruct (fst (adm st dS w)) as [b| |]; eauto. contradiction.
Qed.

Lemma returning_scale_loop cfg deps adm scale st proposed n k :
  (forall st dS, returns_or_throws (adm st dS)) ->
  (forall nf, neutral_step deps = Some nf -> returns nf) ->
  (forall input k out, returns (scale input k out)) ->
  returning (scale_loop cfg deps adm scale st proposed n k).
Proof.
  intros Hadm Hnf Hscale. revert k.
  induction n as [|n IH]; intros k; simpl.
  - apply returning_neutral_safe. exact Hnf.
  - apply returning_bind; [apply returning_invoke, Hscale|].
    intros [[|] scaled]; simpl; [|apply returning_neutral_safe, Hnf].
    apply returning_bind; [apply returning_safe_is_admissible, Hadm|].
    intros [[|] [|]]; simpl;
      first [apply returning_ret | apply IH | apply returning_neutral_safe, Hnf].
Qed.

Lemma returning_enforce cfg deps st proposed :
  well_behaved deps -> returning (enforce cfg deps st proposed).
Proof.
  intros (Hadm & Hnf & Hscale & Hproject).
  unfold enforce. apply returning_noexcept.
  destruct (is_admissible deps) as [adm|];
    [destruct (neutral_step deps) as [nf|] eqn:Enf|];
    try (apply returning_neutral_safe; intros nf' E; apply Hnf; congruence).
  specialize (Hadm adm eq_refl).
  assert (Hneutral : returning (neutral_safe deps)).
  { apply returning_neutral_safe. rewrite Enf. exact Hnf. }
  apply returning_bind; [apply returning_safe_is_admissible, Hadm|].
  intros [[|] [|]]; simpl; try exact Hneutral; [apply returning_ret|].
  destruct (mode cfg); [exact Hneutral| |].
  - unfold enforce_scale. apply returning_noexcept.
    destruct (scale_step deps) as [scale|]; [|exact Hneutral].
    apply returning_scale_loop; [exact Hadm | rewrite Enf; exact Hnf | apply Hscale; reflexivity].
  - unfold enforce_project. apply returning_noexcept.
    destruct (project_step deps) as [project|]; [|exact Hneutral].
    apply returning_bind; [apply returning_invoke, Hproject; reflexivity|].
    intros [[|] projected]; simpl; [|exact Hneutral].
    apply returning_bind; [apply returning_safe_is_admissible, Hadm|].
    intros [[|] [|]]; simpl; first [exact Hneutral | apply returning_ret].
Qed.

(** *** Exceptions of the predicate *)

Implicit Types (st : State) (dS proposed : Step) (l : list (Call State Step)).

Lemma throw_ends_nil (o : Outcome Step) : throw_ends (@nil (Call State Step)) o.
Proof.
  intros pre st dS post E. destruct pre; discriminate.
Qed.

Lemma throw_ends_cons (c : Call State Step) l (o : Outcome Step) :
  (forall st dS, c <> IsAdmissible st dS Thrown) ->
  throw_ends l o -> throw_ends (c :: l) o.
Proof.
  intros Hc Hl pre st dS post E. destruct pre as [|c' pre]; simpl in E.
  - injection E as E _. destruct (Hc st dS E).
  - injection E as _ E. exact (Hl pre st dS post E).
Qed.

Lemma throw_ends_thrown st dS (r : Outcome Step) :
  throw_ends [IsAdmissible st dS Thrown; NeutralStep r] (at_noexcept r).
Proof.
  intros pre st' dS' post E. destruct pre as [|c pre]; simpl in E.
  - injection E as _ _ E. exists r. split; [symmetry; exact E | reflexivity].
  - injection E as _ E. destruct pre as [|c' pre]; simpl in E; [discriminate|].
    injection E as _ E. destruct pre; discriminate.
Qed.

Ltac other_call := intros ? ?; discriminate.

Lemma throw_ends_app l1 l2 (o : Outcome Step) :
  Forall no_throw l1 -> throw_ends l2 o -> throw_ends (l1 ++ l2) o.
Proof.
  intros Hl1 Hl2. induction Hl1 as [|c l1 Hc _ IH]; simpl.
  - exact Hl2.
  - apply throw_ends_cons; assumption.
Qed.

Lemma throw_ends_clean l (o : Outcome Step) :
  Forall no_throw l -> throw_ends l o.
Proof.
  intros Hl. rewrite <- (app_nil_r l). apply throw_ends_app; [exact Hl|].
  apply throw_ends_nil.
Qed.

Lemma throw_handled_bind {A : Type} (m : M W State Step A) (f : A -> M W State Step Step) w :
  Forall no_throw (calls (m w)) ->
  (forall a w1, throw_handled (f a w1)) ->
  throw_handled (bind m f w).
Proof.
  intros Hm Hf. unfold bind, throw_handled.
  destruct (m w) as [[a| |] w1 t1]; simpl in *;
    try (apply throw_ends_clean; exact Hm).
  specialize (Hf a w1). destruct (f a w1) as [o w2 t2]. simpl.
  apply throw_ends_app; assumption.
Qed.

Lemma throw_ends_at_noexcept l (o : Outcome Step) :
  throw_ends l o -> throw_ends l (at_noexcept o).
Proof.
  intros H pre st dS post E. destruct (H pre st dS post E) as (r & Hpost & Ho).
  exists r. split; [exact Hpost|]. rewrite Ho. apply at_noexcept_idem.
Qed.

Lemma throw_handled_noexcept (m : M W State Step Step) w :
  throw_handled (m w) -> throw_handled (noexcept m w).
Proof.
  unfold throw_handled. rewrite noexcept_run. simpl. apply throw_ends_at_noexcept.
Qed.

Lemma invoke_no_throw {A : Type} (h : Hook W A) (log : Outcome A -> Call State Step) w :
  (forall r, no_throw (log r)) -> Forall no_throw (calls (invoke h log w)).
Proof.
  intros Hlog. unfold invoke. destruct (h w) as [r w1]. simpl.
  constructor; [apply Hlog | constructor].
Qed.

Lemma throw_handled_ret (a : Step) w : throw_handled (@ret W State Step Step a w).
Proof.
  apply throw_ends_nil.
Qed.

Lemma throw_handled_neutral_safe deps w : throw_handled (neutral_safe deps w).
Proof.
  unfold throw_handled. rewrite neutral_safe_run.
  destruct (neutral_step deps) as [nf|]; simpl.
  - apply throw_ends_cons; [other_call | apply throw_ends_nil].
  - apply throw_ends_nil.
Qed.

(** What follows an evaluation through [safe_is_admissible]: on failure the
    continuation is [neutral_safe]; otherwise whatever [next] does. *)
Lemma throw_handled_evaluation deps adm nf st dS (next : bool -> M W State Step Step) w :
  neutral_step deps = Some nf ->
  (forall b w1, throw_handled (next b w1)) ->
  throw_handled
    (bind (safe_is_admissible adm st dS)
          (fun x => let (evaluated, admissible) := x in
                    if negb evaluated then neutral_safe deps else next admissible) w).
Proof.
  intros Hnf Hnext. unfold throw_handled, bind. rewrite safe_is_admissible_run.
  destruct (adm st dS w) as [[b| |] w1]; simpl.
  - specialize (Hnext b w1). destruct (next b w1) as [o w2 t2].
    apply throw_ends_cons; [other_call | exact Hnext].
  - rewrite neutral_safe_run, Hnf. simpl. apply throw_ends_thrown.
  - apply throw_ends_cons; [other_call | apply throw_ends_nil].
Qed.

Lemma throw_handled_scale_loop cfg deps adm scale nf st proposed n k w :
  neutral_step deps = Some nf ->
  throw_handled (scale_loop cfg deps adm scale st proposed n k w).
Proof.
  intros Hnf. revert k w. induction n as [|n IH]; intros k w; simpl.
  - apply throw_handled_neutral_safe.
  - apply throw_handled_bind; [apply invoke_no_throw; intros r; other_call|].
    intros [[|] scaled] w1; simpl; [|apply throw_handled_neutral_safe].
    apply (throw_handled_evaluation deps adm nf st scaled
             (fun admissible =>
                if admissible then ret scaled
                else scale_loop cfg deps adm scale st proposed n
                       (k * scale_factor cfg)%float) w1 Hnf).
    intros [|] w2; [apply throw_handled_ret | apply IH].
Qed.

Lemma throw_handled_enforce_project deps adm nf st proposed w :
  neutral_step deps = Some nf ->
  throw_handled (enforce_project deps adm st proposed w).
Proof.
  intros Hnf. unfold enforce_project. apply throw_handled_noexcept.
  destruct (project_step deps) as [project|]; [|apply throw_handled_neutral_safe].
  apply throw_handled_bind; [apply invoke_no_throw; intros r; other_call|].
  intros [[|] projected] w1; simpl; [|apply throw_handled_neutral_safe].
  apply (throw_handled_evaluation deps adm nf st projected
           (fun admissible =>
              if negb admissible then neutral_safe deps else ret projected) w1 Hnf).
  intros [|] w2; [apply throw_handled_ret | apply throw_handled_neutral_safe].
Qed.

Lemma throw_handled_enforce cfg deps st proposed w :
  throw_handled (enforce cfg deps st proposed w).
Proof.
  unfold enforce. apply throw_handled_noexcept.
  destruct (is_admissible deps) as [adm|];
    [destruct (neutral_step deps) as [nf|] eqn:Hnf|];
    try apply throw_handled_neutral_safe.
  apply (throw_handled_evaluation deps adm nf st proposed
           (fun admissible =>
              if admissible then ret proposed
              else match mode cfg with
                   | Reject => neutral_safe deps
                   | Scale => enforce_scale cfg deps adm st proposed
                   | Project => enforce_project deps adm st proposed
                   end) w Hnf).
  intros [|] w1; [apply throw_handled_ret|].
  destruct (mode cfg).
  - apply throw_handled_neutral_safe.
  - unfold enforce_scale. apply throw_handled_noexcept.
    destruct (scale_step deps) as [scale|]; [|apply throw_handled_neutral_safe].
    apply (throw_handled_scale_loop cfg deps adm scale nf); exact Hnf.
  - apply (throw_handled_enforce_project deps adm nf); exact Hnf.
Qed.

(** C8 (exception boundary).  From any world and with any hooks: (1) the
    outcome of [enforce] is never an exception; (2) wherever the log shows a
    predicate call that threw -- the initial check, a Scale candidate or the
    Project verification -- the only thing that follows is one call of the
    neutral provider, and [enforce] ends with what that call gave: the neutral
    step when the provider returns one; (3) when the other three hooks always
    return and the predicate returns or throws, [enforce] returns a step. *)
Theorem enforce_exception_boundary cfg deps st proposed w :
  outcome (enforce cfg deps st proposed w) <> Thrown /\
  (forall pre st' dS' post,
     calls (enforce cfg deps st proposed w) =
       pre ++ IsAdmissible st' dS' Thrown :: post ->
     exists r,
       post = [NeutralStep r] /\
       outcome (enforce cfg deps st proposed w) = at_noexcept r /\
       (forall n, r = Returned n ->
          outcome (enforce cfg deps st proposed w) = Returned n)) /\
  (well_behaved deps ->
   exists effective, outcome (enforce cfg deps st proposed w) = Returned effective).
Proof.
  split; [|split].
  - unfold enforce. rewrite noexcept_run. simpl.
    match goal with |- at_noexcept ?o <> _ => destruct o end; discriminate.
  - intros pre st' dS' post E.
    destruct (throw_handled_enforce cfg deps st proposed w pre st' dS' post E)
      as (r & Hpost & Ho).
    exists r. split; [exact Hpost|]. split; [exact Ho|].
    intros n Hr. rewrite Ho, Hr. reflexivity.
  - intros Hdeps. apply returning_enforce. exact Hdeps.
Qed.

End AnyHost.

(** ** The decision procedure on pure hosts *)

Section PureHost.

Context {W State Step : Type} {Step_init : ValueInit Step}.

Variable h : PureHooks State Step.
Variable cfg : Config.

Implicit Types (w : W) (st : State) (dS proposed : Step).

Local Notation adm_hook := (fun st dS => @hook_of_option W bool (p_is_admissible h st dS)).
Local Notation deps := (@pure_deps W State Step h).

Lemma pure_safe_is_admissible st dS w :
  safe_is_admissible adm_hook st dS w =
  mkRun
    (Returned match p_is_admissible h st dS with
              | Some b => (true, b)
              | None => (false, false)
              end)
    w
    [IsAdmissible st dS (outcome_of_option (p_is_admissible h st dS))].
Proof.
  rewrite safe_is_admissible_run.
  destruct (p_is_admissible h st dS) as [b|]; reflexivity.
Qed.

Lemma bind_invoke_pure {A B : Type} (a : A) (log : Outcome A -> Call State Step)
    (f : A -> M W State Step B) w :
  bind (invoke (pure_hook a) log) f w =
  mkRun (outcome (f a w)) (world (f a w)) (log (Returned a) :: calls (f a w)).
Proof.
  unfold bind, invoke, pure_hook. destruct (f a w). reflexivity.
Qed.

Lemma bind_evaluation {B : Type} st dS (f : bool * bool -> M W State Step B) w :
  bind (safe_is_admissible adm_hook st dS) f w =
  let r :=
    f match p_is_admissible h st dS with
      | Some b => (true, b)
      | None => (false, false)
      end w in
  mkRun (outcome r) (world r)
        (IsAdmissible st dS (outcome_of_option (p_is_admissible h st dS)) :: calls r).
Proof.
  rewrite (bind_returned _ _ _ _ _ _ (pure_safe_is_admissible st dS w)).
  reflexivity.
Qed.

(** *** Uniformity: the world plays no part *)

Lemma uniform_ret {A : Type} (a : A) : uniform (@ret W State Step A a).
Proof.
  intros w w'. reflexivity.
Qed.

Lemma uniform_bind {A B : Type} (m : M W State Step A) (f : A -> M W State Step B) :
  uniform m -> (forall a, uniform (f a)) -> uniform (bind m f).
Proof.
  intros Hm Hf w w'. unfold bind. rewrite (Hm w w').
  destruct (m w) as [[a| |] w1 t1]; simpl; try reflexivity.
  rewrite (Hf a w1 w'). destruct (f a w1) as [o w2 t2]. reflexivity.
Qed.

Lemma uniform_noexcept {A : Type} (m : M W State Step A) :
  uniform m -> uniform (noexcept m).
Proof.
  intros Hm w w'. rewrite !noexcept_run, (Hm w w'). reflexivity.
Qed.

Lemma uniform_invoke_pure {A : Type} (a : A) (log : Outcome A -> Call State Step) :
  uniform (@invoke W State Step A (pure_hook a) log).
Proof.
  intros w w'. reflexivity.
Qed.

Lemma uniform_neutral_safe : uniform (neutral_safe deps).
Proof.
  intros w w'. reflexivity.
Qed.

Lemma uniform_safe_is_admissible st dS : uniform (safe_is_admissible adm_hook st dS).
Proof.
  intros w w'. rewrite !pure_safe_is_admissible. reflexivity.
Qed.

Lemma uniform_scale_loop scale st proposed n k :
  uniform (scale_loop cfg deps adm_hook
             (fun input k out => pure_hook (scale input k out)) st proposed n k).
Proof.
  revert k. induction n as [|n IH]; intros k; simpl.
  - apply uniform_neutral_safe.
  - apply uniform_bind; [apply uniform_invoke_pure|].
    intros [[|] scaled]; simpl; [|apply uniform_neutral_safe].
    apply uniform_bind; [apply uniform_safe_is_admissible|].
    intros [[|] [|]]; simpl;
      first [apply uniform_ret | apply IH | apply uniform_neutral_safe].
Qed.

Lemma uniform_enforce st proposed : uniform (enforce cfg deps st proposed).
Proof.
  unfold enforce. simpl. apply uniform_noexcept.
  apply uniform_bind; [apply uniform_safe_is_admissible|].
  intros [[|] [|]]; simpl; try apply uniform_neutral_safe; [apply uniform_ret|].
  destruct (mode cfg); [apply uniform_neutral_safe| |].
  - unfold enforce_scale. apply uniform_noexcept. simpl.
    destruct (p_scale_step h) as [scale|]; simpl; [|apply uniform_neutral_safe].
    apply uniform_scale_loop.
  - unfold enforce_project. apply uniform_noexcept. simpl.
    destruct (p_project_step h) as [project|]; simpl; [|apply uniform_neutral_safe].
    apply uniform_bind; [apply uniform_invoke_pure|].
    intros [[|] projected]; simpl; [|apply uniform_neutral_safe].
    apply uniform_bind; [apply uniform_safe_is_admissible|].
    intros [[|] [|]]; simpl; first [apply uniform_ret | apply uniform_neutral_safe].
Qed.

(** C9 (determinism).  With pure hooks, the outcome of [enforce] and its log
    are the same from every world, and [enforce] leaves the world as it found
    it; so a second call with the same state and proposal, made after the
    first, gives the same output. *)
Theorem enforce_deterministic st proposed w w' :
  outcome (enforce cfg deps st proposed w') = outcome (enforce cfg deps st proposed w) /\
  calls (enforce cfg deps st proposed w') = calls (enforce cfg deps st proposed w) /\
  world (enforce cfg deps st proposed w) = w /\
  outcome (enforce cfg deps st proposed (world (enforce cfg deps st proposed w))) =
    outcome (enforce cfg deps st proposed w).
Proof.
  pose proof (uniform_enforce st proposed) as U.
  repeat split.
  - rewrite (U w w'). reflexivity.
  - rewrite (U w w'). reflexivity.
  - rewrite (U w w). reflexivity.
  - rewrite (U w (world (enforce cfg deps st proposed w))). reflexivity.
Qed.

(** *** Safety *)

Lemma safe_run_neutral_safe st w : safe_run h st (neutral_safe deps w).
Proof.
  exists (p_neutral_step h). split; [reflexivity | right; reflexivity].
Qed.

Lemma safe_run_noexcept st (m : M W State Step Step) w :
  safe_run h st (m w) -> safe_run h st (noexcept m w).
Proof.
  intros (e & He & Hsafe). exists e. split; [|exact Hsafe].
  rewrite noexcept_run. simpl. rewrite He. reflexivity.
Qed.

Lemma safe_run_invoke_pure {A : Type} st (a : A) (log : Outcome A -> Call State Step)
    (f : A -> M W State Step Step) w :
  safe_run h st (f a w) -> safe_run h st (bind (invoke (pure_hook a) log) f w).
Proof.
  intros Hf. rewrite bind_invoke_pure. exact Hf.
Qed.

(** After an evaluation of [(st, dS)]: the continuation for an admissible
    [dS] may rely on it being admissible. *)
Lemma safe_run_evaluation st dS (next : bool -> M W State Step Step) w :
  (p_is_admissible h st dS = Some true -> safe_run h st (next true w)) ->
  safe_run h st (next false w) ->
  safe_run h st
    (bind (safe_is_admissible adm_hook st dS)
          (fun x => let (evaluated, admissible) := x in
                    if negb evaluated then neutral_safe deps else next admissible) w).
Proof.
  intros Htrue Hfalse. rewrite bind_evaluation.
  unfold safe_run in *. cbn [outcome].
  destruct (p_is_admissible h st dS) as [[|]|]; cbn [negb].
  - apply Htrue. reflexivity.
  - exact Hfalse.
  - apply safe_run_neutral_safe.
Qed.

Lemma safe_run_ret st e w :
  p_is_admissible h st e = Some true -> safe_run h st (@ret W State Step Step e w).
Proof.
  intros He. exists e. split; [reflexivity | left; exact He].
Qed.

Lemma safe_run_scale_loop scale st proposed n k w :
  safe_run h st
    (scale_loop cfg deps adm_hook
       (fun input k out => pure_hook (scale input k out)) st proposed n k w).
Proof.
  revert k. induction n as [|n IH]; intros k.
  - apply safe_run_neutral_safe.
  - rewrite scale_loop_S. cbv beta. apply safe_run_invoke_pure.
    destruct (scale proposed k value_init) as [[|] scaled]; cbn [negb];
      [|apply safe_run_neutral_safe].
    apply (safe_run_evaluation st scaled
             (fun admissible =>
                if admissible then ret scaled
                else scale_loop cfg deps adm_hook
                       (fun input k out => pure_hook (scale input k out))
                       st proposed n (k * scale_factor cfg)%float)).
    + apply safe_run_ret.
    + apply IH.
Qed.

Lemma safe_run_enforce_project st proposed w :
  safe_run h st (enforce_project deps adm_hook st proposed w).
Proof.
  unfold enforce_project. apply safe_run_noexcept.
  cbn [project_step pure_deps].
  destruct (p_project_step h) as [project|]; cbn [option_map];
    [|apply safe_run_neutral_safe].
  cbv beta. apply safe_run_invoke_pure.
  destruct (project st proposed value_init) as [[|] projected]; cbn [negb];
    [|apply safe_run_neutral_safe].
  apply (safe_run_evaluation st projected
           (fun admissible =>
              if negb admissible then neutral_safe deps else ret projected)).
  - apply safe_run_ret.
  - apply safe_run_neutral_safe.
Qed.

Lemma safe_run_enforce st proposed w :
  safe_run h st (enforce cfg deps st proposed w).
Proof.
  unfold enforce. cbn [is_admissible neutral_step pure_deps].
  apply safe_run_noexcept.
  apply (safe_run_evaluation st proposed
           (fun admissible =>
              if admissible then ret proposed
              else match mode cfg with
                   | Reject => neutral_safe deps
                   | Scale => enforce_scale cfg deps adm_hook st proposed
                   | Project => enforce_project deps adm_hook st proposed
                   end)).
  - apply safe_run_ret.
  - destruct (mode cfg).
    + apply safe_run_neutral_safe.
    + unfold enforce_scale. apply safe_run_noexcept.
      cbn [scale_step pure_deps].
      destruct (p_scale_step h) as [scale|]; cbn [option_map];
        [|apply safe_run_neutral_safe].
      apply safe_run_scale_loop.
    + apply safe_run_enforce_project.
Qed.

(** *** The Scale search *)

Section Search.

Variable scale : Step -> float -> Step -> bool * Step.
Variables (st : State) (proposed : Step).

Local Notation scale_hook := (fun input k out => @pure_hook W _ (scale input k out)).
Local Notation loop := (scale_loop cfg deps adm_hook scale_hook st proposed).
Local Notation factor := (scale_factor cfg).

Lemma scale_loop_step n k c verdict w :
  scale proposed k value_init = (true, c) ->
  p_is_admissible h st c = Some verdict ->
  loop (S n) k w =
  let r := (if verdict then ret c else loop n (k * factor)%float) w in
  mkRun (outcome r) (world r)
        (ScaleStep proposed k (Returned (true, c))
           :: IsAdmissible st c (Returned verdict) :: calls r).
Proof.
  intros Hscale Hadm. rewrite scale_loop_S. cbv beta.
  rewrite bind_invoke_pure, Hscale. cbn [negb].
  rewrite bind_evaluation, Hadm. cbn [negb outcome_of_option].
  destruct verdict; reflexivity.
Qed.

Lemma scale_loop_attempt n i verdict w :
  judged h factor scale st proposed i verdict ->
  loop (S n) (scale_k factor i) w =
  let r :=
    (if verdict then ret (snd (candidate factor scale proposed i))
     else loop n (scale_k factor (S i))) w in
  mkRun (outcome r) (world r)
        (attempt_calls factor scale st proposed verdict i ++ calls r).
Proof.
  intros [Hok Hadm]. unfold attempt_calls, candidate in *.
  destruct (scale proposed (scale_k factor i) value_init) as [ok c] eqn:E.
  simpl in Hok, Hadm. subst ok.
  rewrite (scale_loop_step n _ c verdict w E Hadm). reflexivity.
Qed.

Lemma scale_loop_found m : forall i0 n w,
  m < n ->
  (forall j, i0 <= j < i0 + m -> judged h factor scale st proposed j false) ->
  judged h factor scale st proposed (i0 + m) true ->
  loop n (scale_k factor i0) w =
  mkRun (Returned (snd (candidate factor scale proposed (i0 + m)))) w
        (flat_map (attempt_calls factor scale st proposed false) (seq i0 m)
           ++ attempt_calls factor scale st proposed true (i0 + m)).
Proof.
  induction m as [|m IH]; intros i0 n w Hlt Hrejected Haccepted;
    destruct n as [|n]; try lia.
  - rewrite Nat.add_0_r in *.
    rewrite (scale_loop_attempt n i0 true w Haccepted). reflexivity.
  - rewrite (scale_loop_attempt n i0 false w); [|apply Hrejected; lia].
    cbv zeta. rewrite (IH (S i0) n w).
    + cbn [outcome world calls seq flat_map].
      rewrite <- Nat.add_succ_comm, <- app_assoc. reflexivity.
    + lia.
    + intros j Hj. apply Hrejected. lia.
    + rewrite Nat.add_succ_comm. exact Haccepted.
Qed.

Lemma scale_loop_exhausted n : forall i0 w,
  (forall j, i0 <= j < i0 + n -> judged h factor scale st proposed j false) ->
  loop n (scale_k factor i0) w =
  mkRun (Returned (p_neutral_step h)) w
        (flat_map (attempt_calls factor scale st proposed false) (seq i0 n)
           ++ [NeutralStep (Returned (p_neutral_step h))]).
Proof.
  induction n as [|n IH]; intros i0 w Hrejected.
  - reflexivity.
  - rewrite (scale_loop_attempt n i0 false w); [|apply Hrejected; lia].
    cbv zeta. rewrite (IH (S i0) w).
    + cbn [outcome world calls seq flat_map].
      rewrite <- app_assoc. reflexivity.
    + intros j Hj. apply Hrejected. lia.
Qed.

(** [enforce] in Scale mode on a proposal the predicate rejects: the initial
    evaluation, then the loop from [k = 1.0]. *)
Lemma enforce_scale_run w :
  mode cfg = Scale ->
  p_scale_step h = Some scale ->
  p_is_admissible h st proposed = Some false ->
  enforce cfg deps st proposed w =
  let r := loop (max_scale_attempts cfg) 1%float w in
  mkRun (outcome r) (world r)
        (IsAdmissible st proposed (Returned false) :: calls r).
Proof.
  intros Hmode Hscale Hadm. unfold enforce.
  cbn [is_admissible neutral_step pure_deps].
  rewrite noexcept_run, bind_evaluation, Hadm, Hmode.
  cbn [negb outcome_of_option]. unfold enforce_scale.
  cbn [scale_step pure_deps]. rewrite Hscale. cbn [option_map].
  rewrite noexcept_run. cbn [outcome world calls].
  rewrite at_noexcept_idem.
  destruct (safe_run_scale_loop scale st proposed (max_scale_attempts cfg) 1%float w)
    as (e & He & _).
  rewrite He. reflexivity.
Qed.

End Search.

(** *** The projection *)

(** [enforce] in Project mode on a proposal the predicate rejects. *)
Lemma enforce_project_run project st proposed w :
  mode cfg = Project ->
  p_project_step h = Some project ->
  p_is_admissible h st proposed = Some false ->
  enforce cfg deps st proposed w =
  let (ok, projected) := project st proposed value_init in
  let verdict := p_is_admissible h st projected in
  let neutral := p_neutral_step h in
  mkRun
    (Returned (if ok then match verdict with Some true => projected | _ => neutral end
               else neutral))
    w
    (IsAdmissible st proposed (Returned false)
       :: ProjectStep st proposed (Returned (ok, projected))
       :: if ok
          then IsAdmissible st projected (outcome_of_option verdict)
                 :: match verdict with
                    | Some true => []
                    | _ => [NeutralStep (Returned neutral)]
                    end
          else [NeutralStep (Returned neutral)]).
Proof.
  intros Hmode Hproject Hadm. unfold enforce.
  cbn [is_admissible neutral_step pure_deps].
  rewrite noexcept_run, bind_evaluation, Hadm, Hmode.
  cbn [negb outcome_of_option]. unfold enforce_project.
  cbn [project_step pure_deps]. rewrite Hproject. cbn [option_map].
  rewrite noexcept_run, bind_invoke_pure.
  destruct (project st proposed value_init) as [[|] projected]; cbn [negb];
    [|reflexivity].
  rewrite bind_evaluation.
  destruct (p_is_admissible h st projected) as [[|]|]; reflexivity.
Qed.

End PureHost.

(** C1 (safety invariant).  With the four slots filled by pure functions
    that always return, [enforce] returns, for every configuration, state and
    proposal, a step that the predicate admits from that state or that equals
    the neutral step. *)
Theorem enforce_safe {W State Step : Type} {Step_init : ValueInit Step}
    (adm : State -> Step -> bool) (neutral : Step)
    (scale : Step -> float -> Step -> bool * Step)
    (project : State -> Step -> Step -> bool * Step)
    (cfg : Config) (st : State) (proposed : Step) (w : W) :
  exists effective,
    outcome (enforce cfg (total_deps adm neutral scale project) st proposed w) =
      Returned effective /\
    (adm st effective = true \/ effective = neutral).
Proof.
  destruct (safe_run_enforce
              {| p_is_admissible := fun st dS => Some (adm st dS);
                 p_neutral_step := neutral;
                 p_scale_step := Some scale;
                 p_project_step := Some project |} cfg st proposed w)
    as (e & He & [Hadm | Hneutral]).
  - exists e. split; [exact He|]. left. simpl in Hadm. congruence.
  - exists e. split; [exact He|]. right. exact Hneutral.
Qed.

(** C3 (Scale search).  In Scale mode with [scale_step] present, on a
    proposal the predicate rejects: the transform is called at most
    [max_scale_attempts] times; attempt [i] scales the proposal by
    [scale_k factor i], which is [1.0] for the first attempt and the previous
    multiplier times [scale_factor] after each rejected one; the first
    candidate the predicate admits is returned, with no attempt after it; and
    when all [max_scale_attempts] candidates are rejected the neutral step is
    returned.  On the scalar host with 16 attempts and factor 0.5, from
    [S = 0.9] the proposal [0.5] gives [0.0625], found at the fourth
    attempt. *)
Theorem enforce_scale_search :
  (forall (W State Step : Type) (Step_init : ValueInit Step)
          (h : PureHooks State Step) (cfg : Config)
          (scale : Step -> float -> Step -> bool * Step)
          (st : State) (proposed : Step) (w : W),
     mode cfg = Scale ->
     p_scale_step h = Some scale ->
     p_is_admissible h st proposed = Some false ->
     let run := enforce cfg (pure_deps h) st proposed w in
     let tried := judged h (scale_factor cfg) scale st proposed in
     let attempt := attempt_calls (scale_factor cfg) scale st proposed in
     count is_ScaleStep (calls run) <= max_scale_attempts cfg /\
     (forall i,
        i < max_scale_attempts cfg ->
        (forall j, j < i -> tried j false) ->
        tried i true ->
        run =
        mkRun (Returned (snd (candidate (scale_factor cfg) scale proposed i))) w
              (IsAdmissible st proposed (Returned false)
                 :: flat_map (attempt false) (seq 0 i) ++ attempt true i)) /\
     ((forall j, j < max_scale_attempts cfg -> tried j false) ->
      run =
      mkRun (Returned (p_neutral_step h)) w
            (IsAdmissible st proposed (Returned false)
               :: flat_map (attempt false) (seq 0 (max_scale_attempts cfg))
               ++ [NeutralStep (Returned (p_neutral_step h))]))) /\
  outcome (enforce (mkConfig Scale 16 0.5) Scalar.deps_scale 0.9%float 0.5%float tt)
    = Returned 0.0625%float /\
  count is_ScaleStep
    (calls (enforce (mkConfig Scale 16 0.5) Scalar.deps_scale 0.9%float 0.5%float tt))
    = 4.
Proof.
  split; [|split; vm_compute; reflexivity].
  intros W State Step Step_init h cfg scale st proposed w Hmode Hscale Hadm
         run tried attempt.
  subst run tried attempt.
  split; [|split].
  - apply enforce_attempts.
  - intros i Hi Hrejected Haccepted.
    rewrite (enforce_scale_run h cfg scale st proposed w Hmode Hscale Hadm).
    rewrite (scale_loop_found h cfg scale st proposed i 0 (max_scale_attempts cfg) w Hi).
    + reflexivity.
    + intros j Hj. apply Hrejected. lia.
    + exact Haccepted.
  - intros Hrejected.
    rewrite (enforce_scale_run h cfg scale st proposed w Hmode Hscale Hadm).
    rewrite (scale_loop_exhausted h cfg scale st proposed (max_scale_attempts cfg) 0 w).
    + reflexivity.
    + intros j Hj. apply Hrejected. lia.
Qed.

(** C4 (Reject).  In Reject mode, if the predicate returns [false] for the
    proposal then [enforce] returns what the neutral provider returns, and
    its log is one predicate call followed by one call of the neutral
    provider: no transform is called and nothing is searched.  On the scalar
    host, from [S = 0.9] the proposal [0.5] gives [0.0]. *)
Theorem enforce_reject :
  (forall (W State Step : Type) (Step_init : ValueInit Step) (cfg : Config)
          (deps : Dependencies W State Step) adm nf
          (st : State) (proposed : Step) (w w1 : W) (n : Step) (w2 : W),
     mode cfg = Reject ->
     is_admissible deps = Some adm ->
     neutral_step deps = Some nf ->
     adm st proposed w = (Returned false, w1) ->
     nf w1 = (Returned n, w2) ->
     enforce cfg deps st proposed w =
     mkRun (Returned n) w2
           [IsAdmissible st proposed (Returned false); NeutralStep (Returned n)]) /\
  outcome (enforce (mkConfig Reject 16 0.5) Scalar.deps_scale 0.9%float 0.5%float tt)
    = Returned 0%float.
Proof.
  split; [|vm_compute; reflexivity].
  intros W State Step Step_init cfg deps adm nf st proposed w w1 n w2.
  apply enforce_reject_run.
Qed.

(** C5 (Project), as the code has it.  No host makes [enforce] call the
    Project transform more than once.  In Project mode with [project_step]
    present, on a proposal the predicate rejects, the transform is called
    exactly once.  If it reports failure, or the predicate throws on the
    projected step, or rejects it, [enforce] returns the neutral step;
    otherwise it returns the projected step.  On the scalar host with the
    clamping transform, from [S = 0.9] the proposal [0.5] gives the double
    [1.0 - 0.9], which is [0x1.9999999999998p-4]: it brings the state to
    exactly [1.0], and it is not the double [0.1]. *)
Theorem enforce_project_once :
  (forall (W State Step : Type) (Step_init : ValueInit Step) (cfg : Config)
          (deps : Dependencies W State Step) (st : State) (proposed : Step) (w : W),
     count is_ProjectStep (calls (enforce cfg deps st proposed w)) <= 1) /\
  (forall (W State Step : Type) (Step_init : ValueInit Step)
          (h : PureHooks State Step) (cfg : Config)
          (project : State -> Step -> Step -> bool * Step)
          (st : State) (proposed : Step) (w : W),
     mode cfg = Project ->
     p_project_step h = Some project ->
     p_is_admissible h st proposed = Some false ->
     let run := enforce cfg (pure_deps h) st proposed w in
     let ok := fst (project st proposed value_init) in
     let projected := snd (project st proposed value_init) in
     count is_ProjectStep (calls run) = 1 /\
     In (ProjectStep st proposed (Returned (ok, projected))) (calls run) /\
     (ok = false -> outcome run = Returned (p_neutral_step h)) /\
     (ok = true -> p_is_admissible h st projected = None ->
        outcome run = Returned (p_neutral_step h)) /\
     (ok = true -> p_is_admissible h st projected = Some false ->
        outcome run = Returned (p_neutral_step h)) /\
     (ok = true -> p_is_admissible h st projected = Some true ->
        outcome run = Returned projected)) /\
  outcome (enforce (mkConfig Project 16 0.5) Scalar.deps_project 0.9%float 0.5%float tt)
    = Returned (1.0 - 0.9)%float /\
  (0.9 + (1.0 - 0.9) =? 1.0)%float = true /\
  (1.0 - 0.9)%float = 0x1.9999999999998p-4%float.
Proof.
  split; [intros; apply enforce_projections|].
  split; [|repeat split; vm_compute; reflexivity].
  intros W State Step Step_init h cfg project st proposed w Hmode Hproject Hadm
         run ok projected.
  subst run ok projected.
  rewrite (enforce_project_run h cfg project st proposed w Hmode Hproject Hadm).
  destruct (project st proposed value_init) as [ok projected].
  cbn [fst snd]. cbv zeta.
  destruct ok, (p_is_admissible h st projected) as [[|]|];
    cbn [outcome calls]; repeat split;
    try (intros; first [reflexivity | discriminate]);
    right; left; reflexivity.
Qed.

(** C5, the value in the claim: the step returned in that scenario is not
    the double [0.1]; the two differ in the last bits. *)
Lemma enforce_project_not_one_tenth :
  outcome (enforce (mkConfig Project 16 0.5) Scalar.deps_project 0.9%float 0.5%float tt)
    = Returned 0x1.9999999999998p-4%float /\
  (0x1.9999999999998p-4 =? 0.1)%float = false /\
  outcome (enforce (mkConfig Project 16 0.5) Scalar.deps_project 0.9%float 0.5%float tt)
    <> Returned 0.1%float.
Proof.
  split; [vm_compute; reflexivity|]. split; [vm_compute; reflexivity|].
  intros E.
  assert (Heq : match outcome (enforce (mkConfig Project 16 0.5) Scalar.deps_project
                                 0.9%float 0.5%float tt) with
                | Returned e => (e =? 0.1)%float
                | _ => false
                end = true)
    by (rewrite E; vm_compute; reflexivity).
  vm_compute in Heq. discriminate.
Qed.

(** C10 (null neutral provider).  If [neutral_step] is null, [enforce]
    returns [Step{}] for every state and proposal, in every mode and whatever
    the other three slots hold, and its log is empty: the predicate is not
    invoked.  So on the scalar host without a neutral provider, from
    [S = 0.0] the proposal [0.2], which [admissible_limit] admits, is not
    passed through: [enforce] returns [0.0]. *)
Theorem enforce_null_neutral_step :
  (forall (W State Step : Type) (Step_init : ValueInit Step) (cfg : Config)
          (deps : Dependencies W State Step) (st : State) (proposed : Step) (w : W),
     neutral_step deps = None ->
     enforce cfg deps st proposed w = mkRun (Returned value_init) w []) /\
  Scalar.admissible_limit 0 0.2 = true /\
  (forall m n factor,
     enforce (mkConfig m n factor) Scalar.deps_null_neutral 0%float 0.2%float tt
       = mkRun (Returned 0%float) tt []) /\
  (0.2 =? 0)%float = false.
Proof.
  split; [|split; [|split]].
  - intros W State Step Step_init cfg deps st proposed w.
    apply enforce_without_neutral.
  - vm_compute. reflexivity.
  - intros m n factor. apply enforce_without_neutral. reflexivity.
  - vm_compute. reflexivity.
Qed.

(** ** The claims at concrete inputs *)

(** Scenario 6 of the tests, in each mode: from [S = 0.0] the admissible
    proposal [0.2] comes back unchanged. *)
Lemma enforce_pass_through_witness :
  forall_modes (fun m =>
    enforce (mkConfig m 16 0.5) Scalar.deps_scale 0%float 0.2%float tt =
    mkRun (Returned 0.2%float) tt [IsAdmissible 0%float 0.2%float (Returned true)]).
Proof.
  unfold forall_modes. split; [|split];
    apply (enforce_pass_through _ Scalar.deps_scale
             (fun S dS => pure_hook (Scalar.admissible_limit S dS))
             (pure_hook Scalar.neutral_zero));
    reflexivity.
Defined.

(** The Scale scenario through the general statement: attempts 0, 1 and 2
    are rejected, attempt 3 is admitted. *)
Lemma enforce_scale_search_witness :
  enforce (mkConfig Scale 16 0.5) Scalar.deps_scale 0.9%float 0.5%float tt =
  mkRun (Returned 0.0625%float) tt
        [IsAdmissible 0.9%float 0.5%float (Returned false);
         ScaleStep 0.5%float 1%float (Returned (true, 0.5%float));
         IsAdmissible 0.9%float 0.5%float (Returned false);
         ScaleStep 0.5%float 0.5%float (Returned (true, 0.25%float));
         IsAdmissible 0.9%float 0.25%float (Returned false);
         ScaleStep 0.5%float 0.25%float (Returned (true, 0.125%float));
         IsAdmissible 0.9%float 0.125%float (Returned false);
         ScaleStep 0.5%float 0.125%float (Returned (true, 0.0625%float));
         IsAdmissible 0.9%float 0.0625%float (Returned true)].
Proof.
  refine (proj1 (proj2 (proj1 enforce_scale_search unit float float _
                          (Scalar.hooks true false) (mkConfig Scale 16 0.5)
                          Scalar.scale_mul 0.9%float 0.5%float tt
                          eq_refl eq_refl eq_refl)) 3 _ _ _).
  - cbn. lia.
  - intros j Hj. destruct j as [|[|[|j]]]; [split; reflexivity .. | lia].
  - split; reflexivity.
Defined.

(** The Reject scenario through the general statement. *)
Lemma enforce_reject_witness :
  enforce (mkConfig Reject 16 0.5) Scalar.deps_scale 0.9%float 0.5%float tt =
  mkRun (Returned 0%float) tt
        [IsAdmissible 0.9%float 0.5%float (Returned false); NeutralStep (Returned 0%float)].
Proof.
  apply (proj1 enforce_reject unit float float _ (mkConfig Reject 16 0.5)
           Scalar.deps_scale
           (fun S dS => pure_hook (Scalar.admissible_limit S dS))
           (pure_hook Scalar.neutral_zero) 0.9%float 0.5%float tt tt 0%float tt);
    reflexivity.
Defined.

(** The Project scenario through the general statement: the transform
    succeeds and the predicate admits what it produced. *)
Lemma enforce_project_once_witness :
  outcome (enforce (mkConfig Project 16 0.5) Scalar.deps_project 0.9%float 0.5%float tt)
    = Returned (1.0 - 0.9)%float.
Proof.
  refine (proj2 (proj2 (proj2 (proj2 (proj2
            (proj1 (proj2 enforce_project_once) unit float float _
               (Scalar.hooks false true) (mkConfig Project 16 0.5)
               Scalar.project_clamp 0.9%float 0.5%float tt
               eq_refl eq_refl eq_refl))))) _ _);
    reflexivity.
Defined.

(** Without a neutral provider the admissible proposal of scenario 6 is
    answered by [0.0]. *)
Lemma enforce_null_neutral_step_witness :
  enforce (mkConfig Reject 16 0.5) Scalar.deps_null_neutral 0%float 0.2%float tt =
  mkRun (Returned 0%float) tt [].
Proof.
  apply (proj1 enforce_null_neutral_step unit float float _ (mkConfig Reject 16 0.5)
           Scalar.deps_null_neutral 0%float 0.2%float tt).
  reflexivity.
Defined.

(** A null predicate: one call of the neutral provider, nothing else.  Scale
    mode without [scale_step]: the rejected proposal is answered by the
    neutral step. *)
Lemma enforce_missing_capability_witness :
  enforce (mkConfig Scale 16 0.5) Scalar.deps_null_predicate 0%float 0.2%float tt =
    mkRun (Returned 0%float) tt [NeutralStep (Returned 0%float)] /\
  enforce (mkConfig Scale 16 0.5) Scalar.deps_project 0.9%float 0.5%float tt =
    mkRun (Returned 0%float) tt
          [IsAdmissible 0.9%float 0.5%float (Returned false);
           NeutralStep (Returned 0%float)].
Proof.
  split.
  - apply (proj1 (proj2 (proj1
             (enforce_missing_capability (mkConfig Scale 16 0.5)
                Scalar.deps_null_predicate 0%float 0.2%float tt)
             (or_introl eq_refl)))
             (pure_hook Scalar.neutral_zero) 0%float tt);
      reflexivity.
  - apply (proj2
             (enforce_missing_capability (mkConfig Scale 16 0.5)
                Scalar.deps_project 0.9%float 0.5%float tt)
             (fun S dS => pure_hook (Scalar.admissible_limit S dS))
             (pure_hook Scalar.neutral_zero) tt 0%float tt);
      try reflexivity.
    left. split; reflexivity.
Defined.

(** The hooks of a pure host are well behaved. *)
Lemma pure_deps_well_behaved {W State Step : Type} (h : PureHooks State Step) :
  well_behaved (@pure_deps W State Step h).
Proof.
  unfold well_behaved, pure_deps. cbn [is_admissible neutral_step scale_step project_step].
  repeat split.
  - intros adm E st dS w. injection E as <-.
    destruct (p_is_admissible h st dS); discriminate.
  - intros nf E w. injection E as <-. eexists. reflexivity.
  - intros scale E input k out w. destruct (p_scale_step h); [|discriminate].
    injection E as <-. eexists. reflexivity.
  - intros project E st input out w. destruct (p_project_step h); [|discriminate].
    injection E as <-. eexists. reflexivity.
Qed.

(** The predicate throws on the initial check. *)
Example throw_on_initial_check :
  enforce (mkConfig Scale 16 0.5) (pure_deps (Scalar.hooks_throwing_at 0.5))
          0.9%float 0.5%float tt =
  mkRun (Returned 0%float) tt
        [IsAdmissible 0.9%float 0.5%float Thrown; NeutralStep (Returned 0%float)].
Proof.
  reflexivity.
Qed.

(** The predicate throws on the second Scale candidate. *)
Example throw_on_scale_candidate :
  enforce (mkConfig Scale 16 0.5) (pure_deps (Scalar.hooks_throwing_at 0.25))
          0.9%float 0.5%float tt =
  mkRun (Returned 0%float) tt
        [IsAdmissible 0.9%float 0.5%float (Returned false);
         ScaleStep 0.5%float 1%float (Returned (true, 0.5%float));
         IsAdmissible 0.9%float 0.5%float (Returned false);
         ScaleStep 0.5%float 0.5%float (Returned (true, 0.25%float));
         IsAdmissible 0.9%float 0.25%float Thrown;
         NeutralStep (Returned 0%float)].
Proof.
  reflexivity.
Qed.

(** The predicate throws on the verification of the projected step. *)
Example throw_on_project_verification :
  enforce (mkConfig Project 16 0.5)
          (pure_deps (Scalar.hooks_throwing_at 0x1.9999999999998p-4))
          0.9%float 0.5%float tt =
  mkRun (Returned 0%float) tt
        [IsAdmissible 0.9%float 0.5%float (Returned false);
         ProjectStep 0.9%float 0.5%float (Returned (true, 0x1.9999999999998p-4%float));
         IsAdmissible 0.9%float 0x1.9999999999998p-4%float Thrown;
         NeutralStep (Returned 0%float)].
Proof.
  reflexivity.
Qed.

(** The exception on the second Scale candidate, through the general
    statement: what follows it in the log, and the outcome. *)
Lemma enforce_exception_boundary_witness :
  (exists r,
     [NeutralStep (Returned 0%float)] = [@NeutralStep float float r] /\
     outcome (enforce (mkConfig Scale 16 0.5)
                (pure_deps (Scalar.hooks_throwing_at 0.25)) 0.9%float 0.5%float tt)
       = at_noexcept r /\
     (forall n, r = Returned n ->
        outcome (enforce (mkConfig Scale 16 0.5)
                   (pure_deps (Scalar.hooks_throwing_at 0.25)) 0.9%float 0.5%float tt)
          = Returned n)) /\
  (exists effective,
     outcome (enforce (mkConfig Scale 16 0.5)
                (pure_deps (Scalar.hooks_throwing_at 0.25)) 0.9%float 0.5%float tt)
       = Returned effective).
Proof.
  split.
  - apply (proj1 (proj2
             (enforce_exception_boundary (mkConfig Scale 16 0.5)
                (pure_deps (Scalar.hooks_throwing_at 0.25)) 0.9%float 0.5%float tt))
             [IsAdmissible 0.9%float 0.5%float (Returned false);
              ScaleStep 0.5%float 1%float (Returned (true, 0.5%float));
              IsAdmissible 0.9%float 0.5%float (Returned false);
              ScaleStep 0.5%float 0.5%float (Returned (true, 0.25%float))]
             0.9%float 0.25%float).
    reflexivity.
  - apply (proj2 (proj2
             (enforce_exception_boundary (mkConfig Scale 16 0.5)
                (pure_deps (Scalar.hooks_throwing_at 0.25)) 0.9%float 0.5%float tt))).
    apply pure_deps_well_behaved.
Defined.

(** The integration test: one [enforce] call from [g_eval_calls = 0] leaves
    the counter at 5, within [1 + max_scale_attempts = 17], and returns the
    step of the Scale scenario. *)
Example counted_evaluations :
  world (enforce (mkConfig Scale 16 0.5) Counted.deps 0.9%float 0.5%float 0) = 5 /\
  outcome (enforce (mkConfig Scale 16 0.5) Counted.deps 0.9%float 0.5%float 0)
    = Returned 0.0625%float /\
  count is_IsAdmissible
    (calls (enforce (mkConfig Scale 16 0.5) Counted.deps 0.9%float 0.5%float 0)) = 5.
Proof.
  repeat split; vm_compute; reflexivity.
Qed.

(** Determinism needs the purity of the hooks: with a predicate that keeps
    state, the same call made twice in a row gives two different steps. *)
Remark impure_predicate_not_deterministic :
  let first := enforce Config_default Counted.deps_first_call 0.9%float 0.5%float 0 in
  let second :=
    enforce Config_default Counted.deps_first_call 0.9%float 0.5%float (world first) in
  outcome first = Returned 0.5%float /\ outcome second = Returned 0%float.
Proof.
  split; reflexivity.
Qed.

(** * Further properties of the engine *)

(** ** How a run of [enforce] ends, on arbitrary hosts *)

Section ExitAnalysis.

Context {W State Step : Type} {Step_init : ValueInit Step}.

Implicit Types (deps : Dependencies W State Step) (cfg : Config) (w : W).
Implicit Types (st : State) (dS proposed : Step) (l body : list (Call State Step)).
Implicit Types (adm : State -> Step -> Hook W bool).

Lemma neutral_safe_outcome_noexcept deps w :
  at_noexcept (outcome (neutral_safe deps w)) = outcome (neutral_safe deps w).
Proof.
  rewrite neutral_safe_run. destruct (neutral_step deps) as [f|]; cbn [outcome].
  - apply at_noexcept_idem.
  - reflexivity.
Qed.

Lemma exit_of_cons deps st (c : Call State Step) (r : Run W State Step Step) :
  ordinary c = true ->
  exit_of deps st r ->
  exit_of deps st (mkRun (outcome r) (world r) (c :: calls r)).
Proof.
  intros Hc (body & Hbody & Hexit). exists (c :: body). split.
  - cbn [forallb]. rewrite Hc, Hbody. reflexivity.
  - cbn [outcome calls].
    destruct Hexit as [(e & Ho & Hl) | [(w' & Ho & Hl) | (c' & Hc' & Ho & Hl)]].
    + left. exists e. rewrite Hl. split; [exact Ho | reflexivity].
    + right. left. exists w'. rewrite Hl. split; [exact Ho | reflexivity].
    + right. right. exists c'. rewrite Hl. repeat split; assumption.
Qed.

Lemma exit_of_neutral_safe deps st w : exit_of deps st (neutral_safe deps w).
Proof.
  exists []. split; [reflexivity|]. right. left. exists w. split; reflexivity.
Qed.

Lemma exit_of_fatal deps st (c : Call State Step) (o : Outcome Step) w :
  fatal c = true -> at_noexcept o = Terminated -> exit_of deps st (mkRun o w [c]).
Proof.
  intros Hc Ho. exists []. split; [reflexivity|]. right. right.
  exists c. repeat split; assumption.
Qed.

Lemma exit_of_noexcept deps st (m : M W State Step Step) w :
  exit_of deps st (m w) -> exit_of deps st (noexcept m w).
Proof.
  intros (body & Hbody & Hexit). exists body. split; [exact Hbody|].
  rewrite noexcept_run. cbn [outcome calls].
  destruct Hexit as [(e & Ho & Hl) | [(w' & Ho & Hl) | (c & Hc & Ho & Hl)]].
  - left. exists e. rewrite Ho. split; [reflexivity | exact Hl].
  - right. left. exists w'. rewrite Ho. split; [|exact Hl].
    apply neutral_safe_outcome_noexcept.
  - right. right. exists c. rewrite at_noexcept_idem. repeat split; assumption.
Qed.

(** A transform call, then whatever [f] does with what it returned. *)
Lemma exit_of_transform {A : Type} deps st (hook : Hook W A)
    (log : Outcome A -> Call State Step) (f : A -> M W State Step Step) w :
  (forall a, ordinary (log (Returned a)) = true) ->
  fatal (log Thrown) = true ->
  fatal (log Terminated) = true ->
  (forall a w1, exit_of deps st (f a w1)) ->
  exit_of deps st (bind (invoke hook log) f w).
Proof.
  intros Hreturned Hthrown Hterminated Hf. unfold bind, invoke.
  destruct (hook w) as [[a| |] w1].
  - specialize (Hf a w1). destruct (f a w1) as [o w2 t2] eqn:E.
    apply (exit_of_cons deps st (log (Returned a)) (mkRun o w2 t2));
      [apply Hreturned | exact Hf].
  - apply exit_of_fatal; [exact Hthrown | reflexivity].
  - apply exit_of_fatal; [exact Hterminated | reflexivity].
Qed.

(** An evaluation of [(st, dS)], after which an admitted [dS] is returned. *)
Lemma exit_of_evaluation deps adm st dS (next : bool -> M W State Step Step) w :
  (forall w1, next true w1 = ret dS w1) ->
  (forall w1, exit_of deps st (next false w1)) ->
  exit_of deps st
    (bind (safe_is_admissible adm st dS)
          (fun x => let (evaluated, admissible) := x in
                    if negb evaluated then neutral_safe deps else next admissible) w).
Proof.
  intros Haccept Hreject. unfold bind. rewrite safe_is_admissible_run.
  destruct (adm st dS w) as [[[|]| |] w1]; cbn [fst snd negb].
  - rewrite Haccept. cbn. exists []. split; [reflexivity|]. left.
    exists dS. split; reflexivity.
  - specialize (Hreject w1). destruct (next false w1) as [o w2 t2] eqn:E.
    apply (exit_of_cons deps st (IsAdmissible st dS (Returned false)) (mkRun o w2 t2));
      [reflexivity | exact Hreject].
  - destruct (neutral_safe deps w1) as [o w2 t2] eqn:E.
    apply (exit_of_cons deps st (IsAdmissible st dS Thrown) (mkRun o w2 t2));
      [reflexivity|].
    rewrite <- E. apply exit_of_neutral_safe.
  - apply exit_of_fatal; reflexivity.
Qed.

Lemma exit_of_scale_loop cfg deps adm scale st proposed n k w :
  exit_of deps st (scale_loop cfg deps adm scale st proposed n k w).
Proof.
  revert k w. induction n as [|n IH]; intros k w.
  - apply exit_of_neutral_safe.
  - rewrite scale_loop_S. apply exit_of_transform; try reflexivity.
    intros [[|] scaled] w1; cbn [negb]; [|apply exit_of_neutral_safe].
    apply (exit_of_evaluation deps adm st scaled
             (fun admissible =>
                if admissible then ret scaled
                else scale_loop cfg deps adm scale st proposed n
                       (k * scale_factor cfg)%float)).
    + reflexivity.
    + intros w2. apply IH.
Qed.

Lemma exit_of_enforce_project deps adm st proposed w :
  exit_of deps st (enforce_project deps adm st proposed w).
Proof.
  unfold enforce_project. apply exit_of_noexcept.
  destruct (project_step deps) as [project|]; [|apply exit_of_neutral_safe].
  apply exit_of_transform; try reflexivity.
  intros [[|] projected] w1; cbn [negb]; [|apply exit_of_neutral_safe].
  apply (exit_of_evaluation deps adm st projected
           (fun admissible =>
              if negb admissible then neutral_safe deps else ret projected)).
  - reflexivity.
  - intros w2. apply exit_of_neutral_safe.
Qed.

(** Every run of [enforce] ends in one of the three ways of [exit_of]. *)
Lemma exit_of_enforce cfg deps st proposed w :
  exit_of deps st (enforce cfg deps st proposed w).
Proof.
  unfold enforce. apply exit_of_noexcept.
  destruct (is_admissible deps) as [adm|];
    [destruct (neutral_step deps) as [nf|] eqn:Hnf|];
    try apply exit_of_neutral_safe.
  apply (exit_of_evaluation deps adm st proposed
           (fun admissible =>
              if admissible then ret proposed
              else match mode cfg with
                   | Reject => neutral_safe deps
                   | Scale => enforce_scale cfg deps adm st proposed
                   | Project => enforce_project deps adm st proposed
                   end)).
  - reflexivity.
  - intros w1. destruct (mode cfg).
    + apply exit_of_neutral_safe.
    + unfold enforce_scale. apply exit_of_noexcept.
      destruct (scale_step deps) as [scale|]; [|apply exit_of_neutral_safe].
      apply exit_of_scale_loop.
    + apply exit_of_enforce_project.
Qed.

Lemma enforce_not_thrown cfg deps st proposed w :
  outcome (enforce cfg deps st proposed w) <> Thrown.
Proof.
  unfold enforce. rewrite noexcept_run. cbn [outcome].
  match goal with |- at_noexcept ?o <> _ => destruct o end; discriminate.
Qed.

(** Where a call sits in a log that ends with [x]. *)
Lemma in_app_last (c x : Call State Step) body pre post :
  body ++ [x] = pre ++ c :: post ->
  In c body \/ (c = x /\ post = []).
Proof.
  revert pre. induction body as [|b body IH]; intros pre E.
  - destruct pre as [|p pre]; cbn in E.
    + injection E as <- <-. right. split; reflexivity.
    + injection E as _ E. destruct pre; discriminate.
  - destruct pre as [|p pre]; cbn in E.
    + injection E as <- _. left. left. reflexivity.
    + injection E as _ E. destruct (IH pre E) as [Hin | Hlast].
      * left. right. exact Hin.
      * right. exact Hlast.
Qed.

Lemma ordinary_in body (c : Call State Step) :
  forallb ordinary body = true -> In c body -> ordinary c = true.
Proof.
  intros Hbody Hin. rewrite forallb_forall in Hbody. apply Hbody, Hin.
Qed.

End ExitAnalysis.

Section ExitProperties.

Context {W State Step : Type} {Step_init : ValueInit Step}.

Implicit Types (deps : Dependencies W State Step) (cfg : Config) (w : W).
Implicit Types (st : State) (proposed : Step).

(** X1 (verified or neutral, on any host).  Whatever the hooks do, stateful
    or not: if [enforce] returns a step, then either the last call of the log
    is the predicate admitting that very step from the state of the call, or
    the last call is the neutral provider returning it, or the provider is
    null, nothing was called and the step is [Step{}]. *)
Theorem enforce_verified_or_neutral cfg deps st proposed w effective :
  outcome (enforce cfg deps st proposed w) = Returned effective ->
  (exists pre,
     calls (enforce cfg deps st proposed w) =
       pre ++ [IsAdmissible st effective (Returned true)]) \/
  (exists pre,
     calls (enforce cfg deps st proposed w) = pre ++ [NeutralStep (Returned effective)]) \/
  (neutral_step deps = None /\ effective = value_init /\
   calls (enforce cfg deps st proposed w) = []).
Proof.
  intros Hreturned.
  destruct (exit_of_enforce cfg deps st proposed w) as (body & _ & Hexit).
  destruct Hexit as [(e & Ho & Hl) | [(w' & Ho & Hl) | (c & _ & Ho & _)]].
  - left. exists body. rewrite Hl. congruence.
  - rewrite neutral_safe_run in Ho, Hl.
    destruct (neutral_step deps) as [nf|] eqn:Hnf; cbn [outcome calls] in Ho, Hl.
    + right. left. exists body. rewrite Hl.
      rewrite Hreturned in Ho. destruct (fst (nf w')); try discriminate.
      cbn in Ho. congruence.
    + right. right. split; [reflexivity|].
      rewrite (enforce_without_neutral cfg deps st proposed w Hnf) in *.
      cbn [outcome] in Hreturned. split; [congruence | reflexivity].
  - rewrite Hreturned in Ho. discriminate.
Qed.

(** X2 (the neutral step is final).  On any host, a call of the neutral
    provider is the last call of the log and what it gave is the outcome of
    [enforce]: the neutral step is not evaluated, scaled or projected, and the
    provider is called at most once. *)
Theorem neutral_step_is_final cfg deps st proposed w pre r post :
  calls (enforce cfg deps st proposed w) = pre ++ NeutralStep r :: post ->
  post = [] /\ outcome (enforce cfg deps st proposed w) = at_noexcept r.
Proof.
  intros Hlog.
  destruct (exit_of_enforce cfg deps st proposed w) as (body & Hbody & Hexit).
  destruct Hexit as [(e & Ho & Hl) | [(w' & Ho & Hl) | (c & Hc & Ho & Hl)]];
    rewrite Hl in Hlog.
  - destruct (in_app_last _ _ _ _ _ Hlog) as [Hin | [E _]]; [|discriminate].
    apply (ordinary_in body _ Hbody) in Hin. discriminate.
  - rewrite neutral_safe_run in Ho, Hlog.
    destruct (neutral_step deps) as [nf|]; cbn [outcome calls] in Ho, Hlog.
    + destruct (in_app_last _ _ _ _ _ Hlog) as [Hin | [E Hpost]].
      * apply (ordinary_in body _ Hbody) in Hin. discriminate.
      * injection E as E. split; [exact Hpost|]. rewrite Ho, E. reflexivity.
    + rewrite app_nil_r in Hlog.
      assert (Hin : In (NeutralStep r) body) by (rewrite Hlog; apply in_elt).
      apply (ordinary_in body _ Hbody) in Hin. discriminate.
  - destruct (in_app_last _ _ _ _ _ Hlog) as [Hin | [E _]].
    + apply (ordinary_in body _ Hbody) in Hin. discriminate.
    + rewrite <- E in Hc. discriminate.
Qed.

(** X3 (only the predicate is guarded).  On any host, if a transform or the
    neutral provider throws, [enforce], being [noexcept] and catching nothing
    but the predicate's exceptions, ends in [std::terminate]. *)
Theorem uncaught_exception_terminates cfg deps st proposed w c :
  In c (calls (enforce cfg deps st proposed w)) ->
  uncaught c = true ->
  outcome (enforce cfg deps st proposed w) = Terminated.
Proof.
  intros Hin Hc.
  assert (Hordinary : forall body, forallb ordinary body = true -> ~ In c body).
  { intros body Hbody Hc'. apply (ordinary_in body _ Hbody) in Hc'.
    destruct c as [? ? []|[]|? ? []|? ? []]; discriminate. }
  destruct (exit_of_enforce cfg deps st proposed w) as (body & Hbody & Hexit).
  destruct Hexit as [(e & Ho & Hl) | [(w' & Ho & Hl) | (c' & Hc' & Ho & Hl)]];
    rewrite Hl in Hin; apply in_app_or in Hin;
    destruct Hin as [Hin | Hin]; try (destruct (Hordinary body Hbody Hin)).
  - destruct Hin as [<- | []]. discriminate.
  - rewrite neutral_safe_run in Ho, Hin.
    destruct (neutral_step deps) as [nf|]; cbn [outcome calls] in Ho, Hin;
      [|destruct Hin].
    destruct Hin as [<- | []]. rewrite Ho.
    destruct (fst (nf w')); try discriminate. reflexivity.
  - pose proof (enforce_not_thrown cfg deps st proposed w) as Hnot.
    destruct (outcome (enforce cfg deps st proposed w)); try discriminate;
      [congruence | reflexivity].
Qed.

End ExitProperties.

(** ** What each mode leaves alone, on arbitrary hosts *)

Section ModeProperties.

Context {W State Step : Type} {Step_init : ValueInit Step}.

Implicit Types (deps : Dependencies W State Step) (cfg : Config) (w : W).
Implicit Types (st : State) (proposed : Step) (p : Call State Step -> bool).
Implicit Types (adm : State -> Step -> Hook W bool).

Ltac none_by_neutral := apply bounded_neutral_safe; reflexivity.

Lemma scale_loop_no_projection cfg deps adm scale st proposed n k :
  bounded is_ProjectStep 0 (scale_loop cfg deps adm scale st proposed n k).
Proof.
  revert k. induction n as [|n IH]; intros k.
  - none_by_neutral.
  - rewrite scale_loop_S.
    apply (bounded_bind _ 0 0); [apply bounded_invoke_other; reflexivity|].
    intros [[|] scaled]; cbn [negb]; [|none_by_neutral].
    apply (bounded_bind _ 0 0);
      [apply bounded_safe_is_admissible_other; reflexivity|].
    intros [[|] [|]]; cbn [negb];
      first [apply bounded_ret | apply IH | none_by_neutral].
Qed.

Lemma enforce_project_no_scaling deps adm st proposed :
  bounded is_ScaleStep 0 (enforce_project deps adm st proposed).
Proof.
  unfold enforce_project. apply bounded_noexcept.
  destruct (project_step deps) as [project|]; [|none_by_neutral].
  apply (bounded_bind _ 0 0); [apply bounded_invoke_other; reflexivity|].
  intros [[|] projected]; cbn [negb]; [|none_by_neutral].
  apply (bounded_bind _ 0 0);
    [apply bounded_safe_is_admissible_other; reflexivity|].
  intros [[|] [|]]; cbn [negb]; first [apply bounded_ret | none_by_neutral].
Qed.

(** The calls [enforce] makes of a transform [p] that its mode does not
    use, given what the two strategies make of it. *)
Lemma enforce_leaves_alone cfg deps st proposed p :
  (forall st dS r, p (IsAdmissible st dS r) = false) ->
  (forall r, p (NeutralStep r) = false) ->
  (forall adm, mode cfg = Scale ->
     bounded p 0 (enforce_scale cfg deps adm st proposed)) ->
  (forall adm, mode cfg = Project ->
     bounded p 0 (enforce_project deps adm st proposed)) ->
  bounded p 0 (enforce cfg deps st proposed).
Proof.
  intros Hadm Hneutral Hscale Hproject.
  assert (Hn : bounded p 0 (neutral_safe deps))
    by (apply bounded_neutral_safe; exact Hneutral).
  unfold enforce. apply bounded_noexcept.
  destruct (is_admissible deps) as [adm|];
    [destruct (neutral_step deps) as [nf|]|]; try exact Hn.
  apply (bounded_bind _ 0 0);
    [apply bounded_safe_is_admissible_other; intros r; apply Hadm|].
  intros [[|] [|]]; cbn [negb]; try exact Hn; [apply bounded_ret|].
  destruct (mode cfg) eqn:Hmode; [exact Hn | |].
  - apply Hscale. reflexivity.
  - apply Hproject. reflexivity.
Qed.

(** X4 (each transform belongs to its mode).  On any host: outside Scale mode
    [enforce] never calls [scale_step], and outside Project mode it never
    calls [project_step]; in Reject mode it calls neither. *)
Theorem transforms_only_in_their_mode cfg deps st proposed w :
  (mode cfg <> Scale ->
   count is_ScaleStep (calls (enforce cfg deps st proposed w)) = 0) /\
  (mode cfg <> Project ->
   count is_ProjectStep (calls (enforce cfg deps st proposed w)) = 0).
Proof.
  split; intros Hmode.
  - assert (H : bounded is_ScaleStep 0 (enforce cfg deps st proposed)).
    { apply enforce_leaves_alone; try reflexivity.
      - intros adm E. congruence.
      - intros adm _. apply enforce_project_no_scaling. }
    specialize (H w). lia.
  - assert (H : bounded is_ProjectStep 0 (enforce cfg deps st proposed)).
    { apply enforce_leaves_alone; try reflexivity.
      - intros adm _. unfold enforce_scale. apply bounded_noexcept.
        destruct (scale_step deps) as [scale|]; [|none_by_neutral].
        apply scale_loop_no_projection.
      - intros adm E. congruence. }
    specialize (H w). lia.
Qed.

(** X5 (no attempts allowed).  In Scale mode with [max_scale_attempts = 0],
    a proposal the predicate rejects is answered by the neutral step without
    any call of [scale_step], whether that slot is filled or not. *)
Theorem scale_without_attempts cfg deps adm nf st proposed w w1 n w2 :
  mode cfg = Scale ->
  max_scale_attempts cfg = 0 ->
  is_admissible deps = Some adm ->
  neutral_step deps = Some nf ->
  adm st proposed w = (Returned false, w1) ->
  nf w1 = (Returned n, w2) ->
  enforce cfg deps st proposed w =
  mkRun (Returned n) w2
        [IsAdmissible st proposed (Returned false); NeutralStep (Returned n)].
Proof.
  intros Hmode Hmax Hadm Hnf Hcall Hneutral.
  assert (Hn : neutral_safe deps w1 = mkRun (Returned n) w2 [NeutralStep (Returned n)]).
  { rewrite neutral_safe_run, Hnf, Hneutral. reflexivity. }
  assert (He : safe_is_admissible adm st proposed w =
               mkRun (Returned (true, false)) w1 [IsAdmissible st proposed (Returned false)]).
  { rewrite safe_is_admissible_run, Hcall. reflexivity. }
  unfold enforce. rewrite Hadm, Hnf, noexcept_run.
  rewrite (bind_returned _ _ _ _ _ _ He). cbn [negb]. rewrite Hmode.
  unfold enforce_scale. rewrite noexcept_run, Hmax.
  destruct (scale_step deps) as [scale|]; cbn [scale_loop]; rewrite Hn; reflexivity.
Qed.

End ModeProperties.

(** ** More on pure hosts *)

Section PureHostSearch.

Context {W State Step : Type} {Step_init : ValueInit Step}.

Variable h : PureHooks State Step.
Variable cfg : Config.

Implicit Types (w : W) (st : State) (dS proposed : Step).

Local Notation adm_hook := (fun st dS => @hook_of_option W bool (p_is_admissible h st dS)).
Local Notation deps := (@pure_deps W State Step h).
Local Notation factor := (scale_factor cfg).
Local Notation neutral_run w :=
  (mkRun (Returned (p_neutral_step h)) w [NeutralStep (Returned (p_neutral_step h))]).

(** [enforce] on a pure host, by the verdict on the proposal. *)
Lemma enforce_pure_run st proposed w :
  enforce cfg deps st proposed w =
  match p_is_admissible h st proposed with
  | Some true => mkRun (Returned proposed) w [IsAdmissible st proposed (Returned true)]
  | Some false =>
      let r :=
        match mode cfg with
        | Reject => neutral_safe deps w
        | Scale => enforce_scale cfg deps adm_hook st proposed w
        | Project => enforce_project deps adm_hook st proposed w
        end in
      mkRun (at_noexcept (outcome r)) (world r)
            (IsAdmissible st proposed (Returned false) :: calls r)
  | None =>
      mkRun (Returned (p_neutral_step h)) w
            [IsAdmissible st proposed Thrown; NeutralStep (Returned (p_neutral_step h))]
  end.
Proof.
  unfold enforce. cbn [is_admissible neutral_step pure_deps].
  rewrite noexcept_run, bind_evaluation.
  destruct (p_is_admissible h st proposed) as [[|]|]; cbn [negb]; try reflexivity.
  destruct (mode cfg); reflexivity.
Qed.

Section Loop.

Variable scale : Step -> float -> Step -> bool * Step.
Variables (st : State) (proposed : Step).

Local Notation scale_hook := (fun input k out => @pure_hook W _ (scale input k out)).
Local Notation loop := (scale_loop cfg deps adm_hook scale_hook st proposed).

(** One iteration of the loop on a pure host, by what the transform and the
    predicate give. *)
Lemma scale_loop_iteration n k w :
  loop (S n) k w =
  let (ok, scaled) := scale proposed k value_init in
  let r :=
    if ok
    then match p_is_admissible h st scaled with
         | Some true => mkRun (Returned scaled) w [IsAdmissible st scaled (Returned true)]
         | Some false =>
             let r' := loop n (k * factor)%float w in
             mkRun (outcome r') (world r')
                   (IsAdmissible st scaled (Returned false) :: calls r')
         | None =>
             mkRun (Returned (p_neutral_step h)) w
                   [IsAdmissible st scaled Thrown;
                    NeutralStep (Returned (p_neutral_step h))]
         end
    else neutral_run w in
  mkRun (outcome r) (world r)
        (ScaleStep proposed k (Returned (ok, scaled)) :: calls r).
Proof.
  rewrite scale_loop_S. cbv beta. rewrite bind_invoke_pure.
  destruct (scale proposed k value_init) as [[|] scaled]; cbn [negb]; [|reflexivity].
  rewrite bind_evaluation.
  destruct (p_is_admissible h st scaled) as [[|]|]; reflexivity.
Qed.

(** The loop returns the neutral step or a candidate it had admitted. *)
Lemma scale_loop_provenance n : forall i0 w,
  exists e,
    outcome (loop n (scale_k factor i0) w) = Returned e /\
    (e = p_neutral_step h \/
     exists i,
       i0 <= i < i0 + n /\
       judged h factor scale st proposed i true /\
       e = snd (candidate factor scale proposed i)).
Proof.
  induction n as [|n IH]; intros i0 w.
  - exists (p_neutral_step h). split; [reflexivity | left; reflexivity].
  - rewrite scale_loop_iteration.
    destruct (scale proposed (scale_k factor i0) value_init) as [[|] scaled] eqn:Hc;
      cbv zeta; cbn [outcome];
      [|exists (p_neutral_step h); split; [reflexivity | left; reflexivity]].
    destruct (p_is_admissible h st scaled) as [[|]|] eqn:Hadm; cbn [outcome].
    + exists scaled. split; [reflexivity|]. right. exists i0.
      unfold judged, candidate. rewrite Hc. cbn [fst snd].
      repeat split; [lia | lia | exact Hadm].
    + destruct (IH (S i0) w) as (e & He & Horigin). exists e.
      split; [exact He|].
      destruct Horigin as [Hn | (i & Hi & Hj & Hval)]; [left; exact Hn|].
      right. exists i. repeat split; [lia | lia | apply Hj | apply Hj | exact Hval].
    + exists (p_neutral_step h). split; [reflexivity | left; reflexivity].
Qed.

(** The loop when attempt [i0 + m] is the first not to be rejected and it
    ends the search without a step: the transform reports failure
    ([verdict = None]), or the predicate throws on the candidate. *)
Lemma scale_loop_aborted m : forall i0 n w,
  m < n ->
  (forall j, i0 <= j < i0 + m -> judged h factor scale st proposed j false) ->
  (fst (candidate factor scale proposed (i0 + m)) = false \/
   p_is_admissible h st (snd (candidate factor scale proposed (i0 + m))) = None) ->
  loop n (scale_k factor i0) w =
  mkRun (Returned (p_neutral_step h)) w
        (flat_map (attempt_calls factor scale st proposed false) (seq i0 m)
           ++ ScaleStep proposed (scale_k factor (i0 + m))
                (Returned (candidate factor scale proposed (i0 + m)))
           :: (if fst (candidate factor scale proposed (i0 + m))
               then [IsAdmissible st (snd (candidate factor scale proposed (i0 + m))) Thrown]
               else [])
           ++ [NeutralStep (Returned (p_neutral_step h))]).
Proof.
  induction m as [|m IH]; intros i0 n w Hlt Hrejected Hfails;
    destruct n as [|n]; try lia.
  - rewrite Nat.add_0_r in *. rewrite scale_loop_iteration.
    unfold candidate in *.
    destruct (scale proposed (scale_k factor i0) value_init) as [[|] scaled];
      cbn [fst snd] in *; [|reflexivity].
    destruct Hfails as [Hflag | Hthrows]; [discriminate|].
    rewrite Hthrows. reflexivity.
  - rewrite (scale_loop_attempt h cfg scale st proposed n i0 false w);
      [|apply Hrejected; lia].
    cbv zeta. rewrite (IH (S i0) n w).
    + cbn [outcome world calls seq flat_map].
      rewrite <- Nat.add_succ_comm, <- app_assoc. reflexivity.
    + lia.
    + intros j Hj. apply Hrejected. lia.
    + rewrite Nat.add_succ_comm. exact Hfails.
Qed.

End Loop.

Lemma enforce_project_pure_outcome st proposed w :
  outcome (enforce_project deps adm_hook st proposed w) =
  match p_project_step h with
  | None => Returned (p_neutral_step h)
  | Some project =>
      let (ok, projected) := project st proposed value_init in
      if ok
      then match p_is_admissible h st projected with
           | Some true => Returned projected
           | _ => Returned (p_neutral_step h)
           end
      else Returned (p_neutral_step h)
  end.
Proof.
  unfold enforce_project. rewrite noexcept_run.
  cbn [outcome project_step pure_deps].
  destruct (p_project_step h) as [project|]; cbn [option_map]; [|reflexivity].
  rewrite bind_invoke_pure. cbn [outcome].
  destruct (project st proposed value_init) as [[|] projected]; cbn [negb];
    [|reflexivity].
  rewrite bind_evaluation.
  destruct (p_is_admissible h st projected) as [[|]|]; reflexivity.
Qed.

(** The origin of the step [enforce] returns on a pure host. *)
Lemma enforce_origin st proposed w :
  exists effective,
    outcome (enforce cfg deps st proposed w) = Returned effective /\
    provenance h cfg st proposed effective.
Proof.
  rewrite enforce_pure_run. unfold provenance.
  destruct (p_is_admissible h st proposed) as [[|]|] eqn:Hadm.
  - exists proposed. split; [reflexivity|]. left. split; reflexivity.
  - cbv zeta. cbn [outcome]. destruct (mode cfg) eqn:Hmode.
    + exists (p_neutral_step h). split; [reflexivity|]. right. right. right. reflexivity.
    + unfold enforce_scale. rewrite noexcept_run. cbn [outcome scale_step pure_deps].
      destruct (p_scale_step h) as [scale|] eqn:Hscale; cbn [option_map].
      * destruct (scale_loop_provenance scale st proposed (max_scale_attempts cfg) 0 w)
          as (e & He & Horigin).
        cbn [scale_k] in He. exists e. rewrite He. split; [reflexivity|].
        destruct Horigin as [Hn | (i & Hi & Hj & Hval)].
        -- right. right. right. exact Hn.
        -- right. left. split; [reflexivity|]. exists scale, i.
           repeat split; [lia | apply Hj | apply Hj | exact Hval].
      * exists (p_neutral_step h). split; [reflexivity|]. right. right. right. reflexivity.
    + rewrite enforce_project_pure_outcome.
      destruct (p_project_step h) as [project|] eqn:Hproject;
        [|exists (p_neutral_step h); split; [reflexivity|]; right; right; right; reflexivity].
      destruct (project st proposed value_init) as [[|] projected] eqn:Hp;
        [|exists (p_neutral_step h); split; [reflexivity|]; right; right; right; reflexivity].
      destruct (p_is_admissible h st projected) as [[|]|] eqn:Hv;
        try (exists (p_neutral_step h); split; [reflexivity|]; right; right; right; reflexivity).
      exists projected. split; [reflexivity|]. right. right. left.
      split; [reflexivity|]. exists project. repeat split; assumption.
  - exists (p_neutral_step h). split; [reflexivity|]. right. right. right. reflexivity.
Qed.

(** X6 (provenance of the effective step).  On a pure host [enforce] always
    returns a step, and that step is the proposal itself, admitted as it
    stands; or, in Scale mode, a candidate of one of the first
    [max_scale_attempts] attempts that the transform produced and the
    predicate admitted; or, in Project mode, the step the transform produced
    and the predicate admitted; or the neutral step.  The engine never makes
    up a step of its own. *)
Theorem enforce_provenance st proposed w :
  exists effective,
    outcome (enforce cfg deps st proposed w) = Returned effective /\
    provenance h cfg st proposed effective.
Proof.
  destruct (enforce_origin st proposed w) as (effective & Hreturned & Horigin).
  exists effective. split; [exact Hreturned | exact Horigin].
Qed.

End PureHostSearch.

Lemma count_flat_map_const {State Step : Type} (p : Call State Step -> bool)
    (f : nat -> list (Call State Step)) (c : nat) (l : list nat) :
  (forall j, count p (f j) = c) -> count p (flat_map f l) = length l * c.
Proof.
  intros Hf. induction l as [|j l IH]; [reflexivity|].
  cbn [flat_map length]. rewrite count_app, Hf, IH. reflexivity.
Qed.

Lemma scale_k_one (i : nat) : scale_k 1 i = 1%float.
Proof.
  induction i as [|i IH]; [reflexivity|]. cbn [scale_k]. rewrite IH. reflexivity.
Qed.

(** X7 (a failed attempt ends the search).  On a pure host in Scale mode, on
    a rejected proposal: if the attempts before attempt [i] are all rejected
    and at attempt [i] the transform reports failure, or the predicate throws
    on its candidate, then [enforce] returns the neutral step at once; the
    log stops there, so no later multiplier is tried, whatever it would have
    given. *)
Theorem scale_search_aborts {W State Step : Type} {Step_init : ValueInit Step}
    (h : PureHooks State Step) (cfg : Config)
    (scale : Step -> float -> Step -> bool * Step)
    (st : State) (proposed : Step) (w : W) (i : nat) :
  mode cfg = Scale ->
  p_scale_step h = Some scale ->
  p_is_admissible h st proposed = Some false ->
  i < max_scale_attempts cfg ->
  (forall j, j < i -> judged h (scale_factor cfg) scale st proposed j false) ->
  fst (candidate (scale_factor cfg) scale proposed i) = false \/
  p_is_admissible h st (snd (candidate (scale_factor cfg) scale proposed i)) = None ->
  enforce cfg (pure_deps h) st proposed w =
  mkRun (Returned (p_neutral_step h)) w
        (IsAdmissible st proposed (Returned false)
           :: flat_map (attempt_calls (scale_factor cfg) scale st proposed false) (seq 0 i)
           ++ ScaleStep proposed (scale_k (scale_factor cfg) i)
                (Returned (candidate (scale_factor cfg) scale proposed i))
           :: (if fst (candidate (scale_factor cfg) scale proposed i)
               then [IsAdmissible st (snd (candidate (scale_factor cfg) scale proposed i))
                       Thrown]
               else [])
           ++ [NeutralStep (Returned (p_neutral_step h))]).
Proof.
  intros Hmode Hscale Hadm Hi Hrejected Hfails.
  rewrite (enforce_scale_run h cfg scale st proposed w Hmode Hscale Hadm).
  rewrite (scale_loop_aborted h cfg scale st proposed i 0 (max_scale_attempts cfg) w Hi).
  - reflexivity.
  - intros j Hj. apply Hrejected. lia.
  - exact Hfails.
Qed.

(** X8 (a factor of one never shrinks).  On a pure host in Scale mode with
    [scale_factor = 1.0], on a rejected proposal whose candidate at multiplier
    [1.0] is rejected too: every attempt calls the transform with [k = 1.0],
    all [max_scale_attempts] attempts are spent, the predicate is evaluated
    [1 + max_scale_attempts] times, and the neutral step is returned. *)
Theorem scale_factor_one_exhausts {W State Step : Type} {Step_init : ValueInit Step}
    (h : PureHooks State Step) (cfg : Config)
    (scale : Step -> float -> Step -> bool * Step)
    (st : State) (proposed : Step) (w : W) :
  mode cfg = Scale ->
  scale_factor cfg = 1%float ->
  p_scale_step h = Some scale ->
  p_is_admissible h st proposed = Some false ->
  judged h 1 scale st proposed 0 false ->
  outcome (enforce cfg (pure_deps h) st proposed w) = Returned (p_neutral_step h) /\
  count is_ScaleStep (calls (enforce cfg (pure_deps h) st proposed w))
    = max_scale_attempts cfg /\
  count is_IsAdmissible (calls (enforce cfg (pure_deps h) st proposed w))
    = 1 + max_scale_attempts cfg /\
  (forall input k r,
     In (ScaleStep input k r) (calls (enforce cfg (pure_deps h) st proposed w)) ->
     k = 1%float).
Proof.
  intros Hmode Hfactor Hscale Hadm Hfirst.
  assert (Hall : forall j, judged h (scale_factor cfg) scale st proposed j false).
  { intros j. rewrite Hfactor. unfold judged, candidate in *.
    rewrite scale_k_one. exact Hfirst. }
  rewrite (enforce_scale_run h cfg scale st proposed w Hmode Hscale Hadm).
  rewrite (scale_loop_exhausted h cfg scale st proposed (max_scale_attempts cfg) 0 w)
    by (intros j _; apply Hall).
  cbv zeta. cbn [outcome calls].
  split; [reflexivity|]. split; [|split].
  - change (IsAdmissible st proposed (Returned false) :: ?l)
      with ([IsAdmissible st proposed (Returned false)] ++ l).
    rewrite !count_app, (count_flat_map_const _ _ 1) by reflexivity.
    rewrite length_seq. cbn. lia.
  - change (IsAdmissible st proposed (Returned false) :: ?l)
      with ([IsAdmissible st proposed (Returned false)] ++ l).
    rewrite !count_app, (count_flat_map_const _ _ 1) by reflexivity.
    rewrite length_seq. cbn. lia.
  - intros input k r [E | Hin]; [discriminate|].
    apply in_app_or in Hin. destruct Hin as [Hin | [E | []]]; [|discriminate].
    apply in_flat_map in Hin. destruct Hin as (j & _ & [E | [E | []]]); [|discriminate].
    injection E as _ <- _. rewrite Hfactor. apply scale_k_one.
Qed.

(** X9 (enforcing twice).  On a pure host, from a state from which the
    neutral step is admissible: a step that [enforce] returned for some
    proposal is passed through unchanged when it is proposed again from the
    same state, with a single evaluation. *)
Theorem enforce_idempotent {W State Step : Type} {Step_init : ValueInit Step}
    (h : PureHooks State Step) (cfg : Config)
    (st : State) (proposed effective : Step) (w w' : W) :
  p_is_admissible h st (p_neutral_step h) = Some true ->
  outcome (enforce cfg (pure_deps h) st proposed w) = Returned effective ->
  enforce cfg (pure_deps h) st effective w' =
  mkRun (Returned effective) w' [IsAdmissible st effective (Returned true)].
Proof.
  intros Hneutral Hfirst.
  destruct (safe_run_enforce h cfg st proposed w) as (e & He & Hsafe).
  assert (e = effective) by congruence. subst e.
  assert (Hadm : p_is_admissible h st effective = Some true).
  { destruct Hsafe as [Hadm | ->]; assumption. }
  rewrite enforce_pure_run, Hadm. reflexivity.
Qed.

(** ** The scalar host *)

(** *** Facts of binary64 arithmetic the host relies on *)

Section Binary64.

Local Open Scope float_scope.

(** A finite double is a zero or a finite non-zero number. *)
Lemma is_finite_cases (x : float) :
  PrimFloat.is_finite x = true ->
  (exists s, Prim2SF x = S754_zero s) \/ (exists s m e, Prim2SF x = S754_finite s m e).
Proof.
  unfold PrimFloat.is_finite, is_nan, is_infinity.
  rewrite !eqb_spec, abs_spec.
  change (Prim2SF infinity) with (S754_infinity false).
  destruct (Prim2SF x) as [s|s| |s m e].
  - intros _. left. exists s. reflexivity.
  - destruct s; discriminate.
  - discriminate.
  - intros _. right. exists s, m, e. reflexivity.
Qed.

(** Adding [0.0] to a finite double gives it back, or [0.0] when it is the
    negative zero. *)
Lemma add_zero (x : float) :
  PrimFloat.is_finite x = true -> x + 0 = x \/ x + 0 = 0.
Proof.
  intros Hx.
  assert (H : Prim2SF (x + 0) = Prim2SF x \/ Prim2SF (x + 0) = Prim2SF 0).
  { rewrite add_spec. change (Prim2SF 0) with (S754_zero false).
    destruct (is_finite_cases x Hx) as [[s E] | (s & m & e & E)]; rewrite E.
    - destruct s; [right | left]; reflexivity.
    - left. reflexivity. }
  destruct H as [H | H]; [left | right]; apply Prim2SF_inj; exact H.
Qed.

End Binary64.

(** *** What the hooks of the scalar host accept *)

Section ScalarHooks.

Import Scalar.

Lemma admissible_limit_finite (S dS : float) :
  admissible_limit S dS = true ->
  is_finite S = true /\ is_finite dS = true /\ in_domain (S + dS) = true.
Proof.
  unfold admissible_limit, in_domain, LIMIT.
  destruct (is_finite S), (is_finite dS); cbn; try discriminate.
  destruct (is_finite (S + dS)); cbn; try discriminate.
  intros H. rewrite H. repeat split.
Qed.

Lemma scale_mul_finite (input k out c : float) :
  scale_mul input k out = (true, c) -> is_finite input = true.
Proof.
  unfold scale_mul. destruct (is_finite input); [reflexivity|].
  cbn. discriminate.
Qed.

Lemma project_clamp_finite (S dS out c : float) :
  project_clamp S dS out = (true, c) -> is_finite S = true /\ is_finite dS = true.
Proof.
  unfold project_clamp. destruct (is_finite S), (is_finite dS); cbn; try discriminate.
  intros _. split; reflexivity.
Qed.

Lemma in_domain_finite (S : float) : in_domain S = true -> is_finite S = true.
Proof.
  unfold in_domain. destruct (is_finite S); [reflexivity | discriminate].
Qed.

Lemma in_domain_add_zero (S : float) :
  in_domain S = true -> in_domain (S + 0) = true.
Proof.
  intros HS. destruct (add_zero S (in_domain_finite S HS)) as [E | E]; rewrite E.
  - exact HS.
  - reflexivity.
Qed.

(** From a state inside the domain the neutral step [0.0] is admissible. *)
Lemma neutral_zero_admissible (S : float) :
  in_domain S = true -> admissible_limit S neutral_zero = true.
Proof.
  intros HS. pose proof (in_domain_add_zero S HS) as Hnext.
  pose proof (in_domain_finite S HS) as Hfinite.
  unfold admissible_limit, neutral_zero. rewrite Hfinite.
  change (is_finite 0) with true. cbn [negb orb].
  unfold in_domain, LIMIT in Hnext.
  destruct (is_finite (S + 0)); [|discriminate]. exact Hnext.
Qed.

End ScalarHooks.

(** X10 (non-finite input on the scalar host).  With the hooks of
    [tests/test_core.cpp], whichever transform slots are filled, in every mode
    and for every Scale bound: if the state or the proposal is NaN or
    infinite, [enforce] returns the neutral step [0.0]. *)
Theorem scalar_non_finite_fail_closed {W : Type} (cfg : Config) (scale project : bool)
    (S proposed : float) (w : W) :
  Scalar.is_finite S = false \/ Scalar.is_finite proposed = false ->
  outcome (enforce cfg (pure_deps (Scalar.hooks scale project)) S proposed w) =
    Returned 0%float.
Proof.
  intros Hnon.
  destruct (enforce_origin (W := W) (Scalar.hooks scale project) cfg S proposed w)
    as (e & He & Horigin).
  rewrite He. f_equal.
  assert (Hadm : forall dS, Scalar.admissible_limit S dS = true ->
                            Scalar.is_finite S = true /\ Scalar.is_finite dS = true).
  { intros dS H. apply admissible_limit_finite in H. tauto. }
  destruct Horigin as [[-> Ha] | [(_ & sc & i & Hsc & _ & [Hok Ha] & Hval)
                                 | [(_ & pr & Hpr & Hp & Ha) | ->]]];
    [| | |reflexivity]; cbn in Ha; injection Ha as Ha; apply Hadm in Ha.
  - destruct Hnon; destruct Ha; congruence.
  - destruct scale; cbn in Hsc; [|discriminate]. injection Hsc as <-.
    unfold candidate in Hok, Hval.
    destruct (Scalar.scale_mul proposed (scale_k (scale_factor cfg) i) value_init)
      as [ok c] eqn:Hc.
    cbn in Hok, Hval. subst ok c. apply scale_mul_finite in Hc.
    destruct Hnon; destruct Ha; congruence.
  - destruct project; cbn in Hpr; [|discriminate]. injection Hpr as <-.
    apply project_clamp_finite in Hp.
    destruct Hnon; destruct Hp; congruence.
Qed.

(** ** The host loop on a pure host *)

Section PureHostRun.

Context {W State Step : Type} {Step_init : ValueInit Step}.

Variable h : PureHooks State Step.
Variable cfg : Config.
Variable apply_step : State -> Step -> State.

(** An invariant of the host's states that admitted steps and the neutral
    step preserve. *)
Variable Inv : State -> Prop.
Hypothesis Inv_admitted :
  forall st e, Inv st -> p_is_admissible h st e = Some true -> Inv (apply_step st e).
Hypothesis Inv_neutral :
  forall st, Inv st -> Inv (apply_step st (p_neutral_step h)).

Local Notation deps := (@pure_deps W State Step h).

Lemma host_step_invariant (st : State) (proposed : Step) (w : W) :
  Inv st ->
  exists st' t,
    host_step cfg deps apply_step st proposed w = mkRun (Returned st') w t /\ Inv st'.
Proof.
  intros Hst. unfold host_step.
  destruct (safe_run_enforce h cfg st proposed w) as (e & He & Hsafe).
  pose proof (uniform_enforce h cfg st proposed w w) as U. rewrite He in U.
  rewrite (bind_returned _ _ _ _ _ _ U). cbn.
  exists (apply_step st e). eexists. split; [reflexivity|].
  destruct Hsafe as [Hadm | ->]; [apply Inv_admitted; assumption | apply Inv_neutral, Hst].
Qed.

Lemma host_run_invariant (proposals : list Step) : forall (st : State) (w : W),
  Inv st ->
  exists st' t,
    host_run cfg deps apply_step st proposals w = mkRun (Returned st') w t /\ Inv st'.
Proof.
  induction proposals as [|proposed rest IH]; intros st w Hst.
  - exists st, []. split; [reflexivity | exact Hst].
  - cbn [host_run].
    destruct (host_step_invariant st proposed w Hst) as (next & t & Hstep & Hnext).
    rewrite (bind_returned _ _ _ _ _ _ Hstep).
    destruct (IH next w Hnext) as (st' & t' & Hrun & Hst').
    rewrite Hrun. cbn. exists st'. eexists. split; [reflexivity | exact Hst'].
Qed.

End PureHostRun.

(** X11 (the scalar host stays in its domain).  With the hooks of
    [tests/test_core.cpp] and the update [apply_step(S, dS) = S + dS], in any
    mode and with any transform slots filled: from a finite state with
    [fabs(S) <= 1.0], applying the step [enforce] returns, for any sequence of
    proposals (NaN and infinities included), always ends in a finite state
    with [fabs(S) <= 1.0]. *)
Theorem scalar_host_stays_in_domain {W : Type} (cfg : Config) (scale project : bool)
    (proposals : list float) (S : float) (w : W) :
  Scalar.in_domain S = true ->
  exists S',
    outcome (host_run cfg (pure_deps (Scalar.hooks scale project)) Scalar.apply_step
               S proposals w) = Returned S' /\
    Scalar.in_domain S' = true.
Proof.
  intros HS.
  destruct (host_run_invariant (W := W) (Scalar.hooks scale project) cfg Scalar.apply_step
              (fun S => Scalar.in_domain S = true)) with (proposals := proposals)
              (st := S) (w := w) as (S' & t & Hrun & HS').
  - intros st e _ Hadm. cbn in Hadm. injection Hadm as Hadm.
    apply admissible_limit_finite in Hadm. apply Hadm.
  - intros st Hst. apply in_domain_add_zero, Hst.
  - exact HS.
  - exists S'. rewrite Hrun. split; [reflexivity | exact HS'].
Qed.

(** X12 (from inside the domain the effective step is admissible).  On the
    scalar host, from a finite state with [fabs(S) <= 1.0], the step that
    [enforce] returns always satisfies [admissible_limit] from that state, the
    neutral step included: the check the learning loops make after every
    call cannot fail there. *)
Theorem scalar_effective_step_admissible {W : Type} (cfg : Config) (scale project : bool)
    (S proposed : float) (w : W) :
  Scalar.in_domain S = true ->
  exists effective,
    outcome (enforce cfg (pure_deps (Scalar.hooks scale project)) S proposed w) =
      Returned effective /\
    Scalar.admissible_limit S effective = true.
Proof.
  intros HS.
  destruct (safe_run_enforce (W := W) (Scalar.hooks scale project) cfg S proposed w)
    as (e & He & Hsafe).
  exists e. split; [exact He|].
  destruct Hsafe as [Hadm | ->].
  - cbn in Hadm. injection Hadm as Hadm. exact Hadm.
  - apply neutral_zero_admissible, HS.
Qed.

(** ** Hooks with effects that do not change their answers *)

Section Alike.

Context {W W' State Step : Type} {Step_init : ValueInit Step}.

Lemma alike_ret {A : Type} (a : A) :
  alike (@ret W State Step A a) (@ret W' State Step A a).
Proof.
  intros w w'. split; reflexivity.
Qed.

Lemma alike_bind {A B : Type} (m : M W State Step A) (m' : M W' State Step A)
    (f : A -> M W State Step B) (f' : A -> M W' State Step B) :
  alike m m' -> (forall a, alike (f a) (f' a)) -> alike (bind m f) (bind m' f').
Proof.
  intros Hm Hf w w'. unfold bind. destruct (Hm w w') as [Ho Hl].
  destruct (m w) as [o w1 t1], (m' w') as [o' w1' t1']. cbn in Ho, Hl. subst o' t1'.
  destruct o as [a| |]; [|split; reflexivity ..].
  destruct (Hf a w1 w1') as [Ho Hl].
  destruct (f a w1) as [o w2 t2], (f' a w1') as [o' w2' t2']. cbn in Ho, Hl. subst o' t2'.
  split; reflexivity.
Qed.

Lemma alike_try_catch {A : Type} (m handler : M W State Step A)
    (m' handler' : M W' State Step A) :
  alike m m' -> alike handler handler' -> alike (try_catch m handler) (try_catch m' handler').
Proof.
  intros Hm Hh w w'. unfold try_catch. destruct (Hm w w') as [Ho Hl].
  destruct (m w) as [o w1 t1], (m' w') as [o' w1' t1']. cbn in Ho, Hl. subst o' t1'.
  destruct o as [a| |]; [split; reflexivity| |split; reflexivity].
  destruct (Hh w1 w1') as [Ho Hl].
  destruct (handler w1) as [o w2 t2], (handler' w1') as [o' w2' t2'].
  cbn in Ho, Hl. subst o' t2'. split; reflexivity.
Qed.

Lemma alike_noexcept {A : Type} (m : M W State Step A) (m' : M W' State Step A) :
  alike m m' -> alike (noexcept m) (noexcept m').
Proof.
  intros Hm w w'. rewrite !noexcept_run. destruct (Hm w w') as [Ho Hl].
  cbn. rewrite Ho, Hl. split; reflexivity.
Qed.

Lemma alike_invoke {A : Type} (hook : Hook W A) (hook' : Hook W' A)
    (log : Outcome A -> Call State Step) :
  (forall w w', fst (hook w) = fst (hook' w')) ->
  alike (invoke hook log) (invoke hook' log).
Proof.
  intros Hh w w'. unfold invoke. specialize (Hh w w').
  destruct (hook w) as [r w1], (hook' w') as [r' w1']. cbn in Hh. subst r'.
  split; reflexivity.
Qed.

Variable deps : Dependencies W State Step.
Variable h : PureHooks State Step.
Hypothesis Hanswers : answers_as deps h.

Local Notation pure := (@pure_deps W' State Step h).

Lemma alike_neutral_safe : alike (neutral_safe deps) (neutral_safe pure).
Proof.
  destruct Hanswers as (_ & (nf & Hnf & Hanswer) & _).
  unfold neutral_safe. rewrite Hnf. cbn [neutral_step pure_deps].
  apply alike_noexcept, alike_invoke. intros w w'. apply Hanswer.
Qed.

Lemma alike_safe_is_admissible adm st dS :
  is_admissible deps = Some adm ->
  alike (safe_is_admissible adm st dS)
        (safe_is_admissible
           (fun st dS => @hook_of_option W' bool (p_is_admissible h st dS)) st dS).
Proof.
  intros Hadm. destruct Hanswers as ((adm' & Hadm' & Hanswer) & _).
  assert (adm' = adm) by congruence. subst adm'.
  unfold safe_is_admissible. apply alike_noexcept, alike_try_catch; [|apply alike_ret].
  apply alike_bind; [|intros out; apply alike_ret].
  apply alike_invoke. intros w w'. rewrite Hanswer.
  destruct (p_is_admissible h st dS); reflexivity.
Qed.

Lemma alike_scale_loop cfg adm scale pure_scale st proposed n k :
  is_admissible deps = Some adm ->
  (forall input k out w, fst (scale input k out w) = Returned (pure_scale input k out)) ->
  alike (scale_loop cfg deps adm scale st proposed n k)
        (scale_loop cfg pure
           (fun st dS => hook_of_option (p_is_admissible h st dS))
           (fun input k out => pure_hook (pure_scale input k out)) st proposed n k).
Proof.
  intros Hadm Hscale. revert k. induction n as [|n IH]; intros k.
  - apply alike_neutral_safe.
  - rewrite !scale_loop_S. apply alike_bind.
    + apply alike_invoke. intros w w'. apply Hscale.
    + intros [[|] scaled]; cbn [negb]; [|apply alike_neutral_safe].
      apply alike_bind; [apply alike_safe_is_admissible, Hadm|].
      intros [[|] [|]]; cbn [negb];
        first [apply alike_ret | apply IH | apply alike_neutral_safe].
Qed.

Lemma alike_enforce cfg st proposed :
  alike (enforce cfg deps st proposed) (enforce cfg pure st proposed).
Proof.
  pose proof Hanswers as ((adm & Hadm & _) & (nf & Hnf & _) & Hscale & Hproject).
  unfold enforce. rewrite Hadm, Hnf. cbn [is_admissible neutral_step pure_deps].
  apply alike_noexcept.
  apply alike_bind; [apply alike_safe_is_admissible, Hadm|].
  intros [[|] [|]]; cbn [negb]; try apply alike_neutral_safe; [apply alike_ret|].
  destruct (mode cfg); [apply alike_neutral_safe| |].
  - unfold enforce_scale. apply alike_noexcept. cbn [scale_step pure_deps].
    destruct (scale_step deps) as [scale|], (p_scale_step h) as [pure_scale|];
      cbn [option_map]; try contradiction; [|apply alike_neutral_safe].
    apply alike_scale_loop; assumption.
  - unfold enforce_project. apply alike_noexcept. cbn [project_step pure_deps].
    destruct (project_step deps) as [project|], (p_project_step h) as [pure_project|];
      cbn [option_map]; try contradiction; [|apply alike_neutral_safe].
    apply alike_bind.
    + apply alike_invoke. intros w w'. apply Hproject.
    + intros [[|] projected]; cbn [negb]; [|apply alike_neutral_safe].
      apply alike_bind; [apply alike_safe_is_admissible, Hadm|].
      intros [[|] [|]]; cbn [negb]; first [apply alike_ret | apply alike_neutral_safe].
Qed.

End Alike.

(** X13 (effects that do not change the answers).  If the hooks of a host
    write to the host's world (a call counter, a log) but return, from every
    world, what the pure functions of [h] return, then [enforce] returns the
    same step and makes the same calls, with the same arguments and results,
    as on the pure host of [h]; so what holds of the outcome and the log on
    pure hosts holds on such hosts. *)
Theorem enforce_ignores_effects {W W' State Step : Type} {Step_init : ValueInit Step}
    (deps : Dependencies W State Step) (h : PureHooks State Step)
    (cfg : Config) (st : State) (proposed : Step) (w : W) (w' : W') :
  answers_as deps h ->
  outcome (enforce cfg deps st proposed w) =
    outcome (enforce cfg (pure_deps h) st proposed w') /\
  calls (enforce cfg deps st proposed w) =
    calls (enforce cfg (pure_deps h) st proposed w').
Proof.
  intros Hanswers. apply (alike_enforce deps h Hanswers).
Qed.

(** ** The counting host *)

Section Tally.

Context {State Step : Type} {Step_init : ValueInit Step}.





End Tally.

Section CountedHost.





Lemma counted_answers_as_scalar : answers_as Counted.deps (Scalar.hooks true false).
Proof.
  unfold answers_as. cbn. repeat split.
  - eexists. split; [reflexivity|]. intros st dS w. reflexivity.
  - eexists. split; [reflexivity|]. intros w. reflexivity.
Qed.

End CountedHost.


(** ** The further properties at concrete inputs *)

(** The Scale scenario ends with the predicate admitting the step returned. *)
Lemma enforce_verified_or_neutral_witness :
  (exists pre,
     calls (enforce (mkConfig Scale 16 0.5) Scalar.deps_scale 0.9%float 0.5%float tt) =
       pre ++ [IsAdmissible 0.9%float 0.0625%float (Returned true)]) \/
  (exists pre,
     calls (enforce (mkConfig Scale 16 0.5) Scalar.deps_scale 0.9%float 0.5%float tt) =
       pre ++ [NeutralStep (Returned 0.0625%float)]) \/
  (neutral_step Scalar.deps_scale = None /\ 0.0625%float = value_init /\
   calls (enforce (mkConfig Scale 16 0.5) Scalar.deps_scale 0.9%float 0.5%float tt) = []).
Proof.
  apply (enforce_verified_or_neutral (mkConfig Scale 16 0.5) Scalar.deps_scale
           0.9%float 0.5%float tt 0.0625%float).
  reflexivity.
Defined.

(** In the Reject scenario nothing follows the call of the neutral provider. *)
Lemma neutral_step_is_final_witness :
  @nil (Call float float) = [] /\
  outcome (enforce (mkConfig Reject 16 0.5) Scalar.deps_scale 0.9%float 0.5%float tt)
    = at_noexcept (Returned 0%float).
Proof.
  apply (neutral_step_is_final (mkConfig Reject 16 0.5) Scalar.deps_scale
           0.9%float 0.5%float tt
           [IsAdmissible 0.9%float 0.5%float (Returned false)] (Returned 0%float) []).
  reflexivity.
Defined.

(** A Scale transform that throws ends the program. *)
Lemma uncaught_exception_terminates_witness :
  outcome (enforce (mkConfig Scale 16 0.5) Scalar.deps_scale_throws 0.9%float 0.5%float tt)
    = Terminated.
Proof.
  apply (uncaught_exception_terminates (mkConfig Scale 16 0.5) Scalar.deps_scale_throws
           0.9%float 0.5%float tt (ScaleStep 0.5%float 1%float Thrown)).
  - right. left. reflexivity.
  - reflexivity.
Defined.

(** Project mode with both transforms present calls [scale_step] never. *)
Lemma transforms_only_in_their_mode_witness :
  count is_ScaleStep
    (calls (enforce (mkConfig Project 16 0.5)
              (pure_deps (Scalar.hooks true true)) 0.9%float 0.5%float tt)) = 0.
Proof.
  apply (proj1 (transforms_only_in_their_mode (mkConfig Project 16 0.5)
                  (pure_deps (Scalar.hooks true true)) 0.9%float 0.5%float tt)).
  discriminate.
Defined.

(** Scale mode with no attempt allowed. *)
Lemma scale_without_attempts_witness :
  enforce (mkConfig Scale 0 0.5) Scalar.deps_scale 0.9%float 0.5%float tt =
  mkRun (Returned 0%float) tt
        [IsAdmissible 0.9%float 0.5%float (Returned false); NeutralStep (Returned 0%float)].
Proof.
  apply (scale_without_attempts (mkConfig Scale 0 0.5) Scalar.deps_scale
           (fun S dS => pure_hook (Scalar.admissible_limit S dS))
           (pure_hook Scalar.neutral_zero) 0.9%float 0.5%float tt tt 0%float tt);
    reflexivity.
Defined.

(** An infinite proposal: the first transform call reports failure. *)
Lemma scale_search_aborts_witness :
  enforce (mkConfig Scale 16 0.5) Scalar.deps_scale 0%float infinity tt =
  mkRun (Returned 0%float) tt
        [IsAdmissible 0%float infinity (Returned false);
         ScaleStep infinity 1%float (Returned (false, 0%float));
         NeutralStep (Returned 0%float)].
Proof.
  refine (scale_search_aborts (Scalar.hooks true false) (mkConfig Scale 16 0.5)
            Scalar.scale_mul 0%float infinity tt 0 eq_refl eq_refl eq_refl _ _ _).
  - cbn. lia.
  - intros j Hj. lia.
  - left. reflexivity.
Defined.

(** Scenario 3 of the tests: four attempts, factor 1.0. *)
Lemma scale_factor_one_exhausts_witness :
  outcome (enforce (mkConfig Scale 4 1.0) Scalar.deps_scale 0.9%float 0.5%float tt)
    = Returned 0%float /\
  count is_ScaleStep
    (calls (enforce (mkConfig Scale 4 1.0) Scalar.deps_scale 0.9%float 0.5%float tt)) = 4 /\
  count is_IsAdmissible
    (calls (enforce (mkConfig Scale 4 1.0) Scalar.deps_scale 0.9%float 0.5%float tt)) = 5 /\
  (forall input k r,
     In (ScaleStep input k r)
        (calls (enforce (mkConfig Scale 4 1.0) Scalar.deps_scale 0.9%float 0.5%float tt)) ->
     k = 1%float).
Proof.
  apply (scale_factor_one_exhausts (Scalar.hooks true false) (mkConfig Scale 4 1.0)
           Scalar.scale_mul 0.9%float 0.5%float tt);
    try reflexivity.
  split; reflexivity.
Defined.

(** The step of the Scale scenario, proposed again from the same state. *)
Lemma enforce_idempotent_witness :
  enforce (mkConfig Scale 16 0.5) Scalar.deps_scale 0.9%float 0.0625%float tt =
  mkRun (Returned 0.0625%float) tt [IsAdmissible 0.9%float 0.0625%float (Returned true)].
Proof.
  apply (enforce_idempotent (Scalar.hooks true false) (mkConfig Scale 16 0.5)
           0.9%float 0.5%float 0.0625%float tt tt);
    reflexivity.
Defined.

(** Scenario 5 of the tests: a NaN proposal. *)
Lemma scalar_non_finite_fail_closed_witness :
  outcome (enforce (mkConfig Scale 16 0.5) Scalar.deps_scale 0%float nan tt)
    = Returned 0%float.
Proof.
  apply (scalar_non_finite_fail_closed (mkConfig Scale 16 0.5) true false 0%float nan tt).
  right. reflexivity.
Defined.

(** A run of the host loop from [S = 0.9] over three proposals. *)
Lemma scalar_host_stays_in_domain_witness :
  exists S',
    outcome (host_run (mkConfig Scale 16 0.5) Scalar.deps_scale Scalar.apply_step
               0.9%float [0.5%float; nan; (-3)%float] tt) = Returned S' /\
    Scalar.in_domain S' = true.
Proof.
  apply (scalar_host_stays_in_domain (mkConfig Scale 16 0.5) true false
           [0.5%float; nan; (-3)%float] 0.9%float tt).
  reflexivity.
Defined.

(** The effective step of the Scale scenario is admissible. *)
Lemma scalar_effective_step_admissible_witness :
  exists effective,
    outcome (enforce (mkConfig Scale 16 0.5) Scalar.deps_scale 0.9%float 0.5%float tt)
      = Returned effective /\
    Scalar.admissible_limit 0.9 effective = true.
Proof.
  apply (scalar_effective_step_admissible (mkConfig Scale 16 0.5) true false
           0.9%float 0.5%float tt).
  reflexivity.
Defined.

(** The counting host and the scalar host of the tests. *)
Lemma enforce_ignores_effects_witness :
  outcome (enforce (mkConfig Scale 16 0.5) Counted.deps 0.9%float 0.5%float 0) =
    outcome (enforce (mkConfig Scale 16 0.5) Scalar.deps_scale 0.9%float 0.5%float tt) /\
  calls (enforce (mkConfig Scale 16 0.5) Counted.deps 0.9%float 0.5%float 0) =
    calls (enforce (mkConfig Scale 16 0.5) Scalar.deps_scale 0.9%float 0.5%float tt).
Proof.
  apply (enforce_ignores_effects Counted.deps (Scalar.hooks true false)
           (mkConfig Scale 16 0.5) 0.9%float 0.5%float 0 tt).
  apply counted_answers_as_scalar.
Defined.

(** ** What the engine hands to the hooks, on arbitrary hosts *)

Section Arguments.

Context {W State Step : Type} {Step_init : ValueInit Step}.

Implicit Types (deps : Dependencies W State Step) (cfg : Config) (w : W).
Implicit Types (st : State) (dS proposed : Step).
Implicit Types (adm : State -> Step -> Hook W bool).
Implicit Types (P : Call State Step -> Prop).

Lemma Forall_calls_bind {A B : Type} P (m : M W State Step A)
    (f : A -> M W State Step B) w :
  Forall P (calls (m w)) ->
  (forall a w1, Forall P (calls (f a w1))) ->
  Forall P (calls (bind m f w)).
Proof.
  intros Hm Hf. unfold bind.
  destruct (m w) as [[a| |] w1 t1]; cbn [calls] in *; try exact Hm.
  specialize (Hf a w1). destruct (f a w1) as [o w2 t2]. cbn [calls] in *.
  apply Forall_app. split; assumption.
Qed.

Lemma Forall_calls_noexcept {A : Type} P (m : M W State Step A) w :
  Forall P (calls (m w)) -> Forall P (calls (noexcept m w)).
Proof.
  rewrite noexcept_run. intros H. exact H.
Qed.

Lemma Forall_calls_invoke {A : Type} P (hook : Hook W A)
    (log : Outcome A -> Call State Step) w :
  (forall r, P (log r)) -> Forall P (calls (invoke hook log w)).
Proof.
  intros Hlog. unfold invoke. destruct (hook w) as [r w1].
  constructor; [apply Hlog | constructor].
Qed.

Lemma Forall_calls_neutral_safe P deps w :
  (forall r, P (NeutralStep r)) -> Forall P (calls (neutral_safe deps w)).
Proof.
  intros HP. rewrite neutral_safe_run. destruct (neutral_step deps) as [nf|]; cbn [calls].
  - constructor; [apply HP | constructor].
  - constructor.
Qed.

Lemma Forall_calls_evaluation P adm st dS w :
  (forall r, P (IsAdmissible st dS r)) ->
  Forall P (calls (safe_is_admissible adm st dS w)).
Proof.
  intros HP. rewrite safe_is_admissible_run. constructor; [apply HP | constructor].
Qed.

(** X15 (the engine hands over what it was given).  On any host, every
    predicate call of [enforce(S, proposed)] is made with the state [S], every
    [scale_step] call with the step [proposed], and the [project_step] call
    with [S] and [proposed]: the engine builds no state and evaluates nothing
    from another state. *)
Theorem enforce_hands_over cfg deps st proposed w :
  Forall (hands_over st proposed) (calls (enforce cfg deps st proposed w)).
Proof.
  assert (Hneutral : forall w1, Forall (hands_over st proposed) (calls (neutral_safe deps w1))).
  { intros w1. apply Forall_calls_neutral_safe. intros r. exact I. }
  assert (Heval : forall adm dS w1,
             Forall (hands_over st proposed) (calls (safe_is_admissible adm st dS w1))).
  { intros adm dS w1. apply Forall_calls_evaluation. intros r. reflexivity. }
  unfold enforce. apply Forall_calls_noexcept.
  destruct (is_admissible deps) as [adm|];
    [destruct (neutral_step deps) as [nf|]|]; try apply Hneutral.
  apply Forall_calls_bind; [apply Heval|].
  intros [[|] [|]] w1; cbn [negb]; try apply Hneutral; [constructor|].
  destruct (mode cfg); [apply Hneutral| |].
  - unfold enforce_scale. apply Forall_calls_noexcept.
    destruct (scale_step deps) as [scale|]; [|apply Hneutral].
    generalize 1%float. generalize w1.
    induction (max_scale_attempts cfg) as [|n IH]; intros w2 k; [apply Hneutral|].
    rewrite scale_loop_S.
    apply Forall_calls_bind; [apply Forall_calls_invoke; intros r; reflexivity|].
    intros [[|] scaled] w3; cbn [negb]; [|apply Hneutral].
    apply Forall_calls_bind; [apply Heval|].
    intros [[|] [|]] w4; cbn [negb]; try apply Hneutral; [constructor | apply IH].
  - unfold enforce_project. apply Forall_calls_noexcept.
    destruct (project_step deps) as [project|]; [|apply Hneutral].
    apply Forall_calls_bind;
      [apply Forall_calls_invoke; intros r; split; reflexivity|].
    intros [[|] projected] w2; cbn [negb]; [|apply Hneutral].
    apply Forall_calls_bind; [apply Heval|].
    intros [[|] [|]] w3; cbn [negb]; try apply Hneutral. constructor.
Qed.

(** *** The schedule of multipliers *)

Lemma multipliers_app (l1 l2 : list (Call State Step)) :
  multipliers (l1 ++ l2) = multipliers l1 ++ multipliers l2.
Proof.
  unfold multipliers. apply flat_map_app.
Qed.

Lemma multipliers_none (l : list (Call State Step)) :
  count is_ScaleStep l = 0 -> multipliers l = [].
Proof.
  unfold count. induction l as [|c l IH]; [reflexivity|].
  destruct c; cbn; try exact IH. discriminate.
Qed.

Lemma multipliers_neutral_safe deps w : multipliers (calls (neutral_safe deps w)) = [].
Proof.
  apply multipliers_none.
  pose proof (bounded_neutral_safe is_ScaleStep deps (fun r => eq_refl) w). lia.
Qed.

(** The loop calls the transform with the multipliers of consecutive
    attempts, as far as it gets. *)
Lemma scale_loop_multipliers cfg deps adm scale st proposed n : forall i0 w,
  exists m,
    m <= n /\
    multipliers
      (calls (scale_loop cfg deps adm scale st proposed n (scale_k (scale_factor cfg) i0) w))
    = map (scale_k (scale_factor cfg)) (seq i0 m).
Proof.
  induction n as [|n IH]; intros i0 w.
  - exists 0. split; [lia|]. apply multipliers_neutral_safe.
  - rewrite scale_loop_S. unfold bind at 1, invoke.
    destruct (scale proposed (scale_k (scale_factor cfg) i0) value_init w)
      as [[[[|] scaled]| |] w1]; cbn [negb];
      try (exists 1; split; [lia | reflexivity]).
    + unfold bind. rewrite safe_is_admissible_run.
      destruct (adm st scaled w1) as [[[|]| |] w2]; cbn [fst snd negb].
      * exists 1. split; [lia | reflexivity].
      * destruct (IH (S i0) w2) as (m & Hm & Hk). cbn [scale_k] in Hk.
        destruct (scale_loop cfg deps adm scale st proposed n
                    (scale_k (scale_factor cfg) i0 * scale_factor cfg) w2)
          as [o w3 t3].
        cbn [calls] in *. exists (S m). split; [lia|].
        cbn [seq map]. rewrite <- Hk. reflexivity.
      * pose proof (multipliers_neutral_safe deps w2) as Hn.
        destruct (neutral_safe deps w2) as [o w3 t3]. cbn [calls] in *.
        exists 1. split; [lia|].
        unfold multipliers in *. cbn [flat_map app]. rewrite Hn. reflexivity.
      * exists 1. split; [lia | reflexivity].
    + pose proof (multipliers_neutral_safe deps w1) as Hn.
      destruct (neutral_safe deps w1) as [o w2 t2]. cbn [calls] in *.
      exists 1. split; [lia|].
      unfold multipliers in *. cbn [flat_map app]. rewrite Hn. reflexivity.
Qed.

(** X16 (the schedule of multipliers).  On any host, the multipliers that
    [enforce] passes to [scale_step] are, in order, [1.0],
    [1.0 * scale_factor], [1.0 * scale_factor * scale_factor], ... for as many
    attempts as were made, at most [max_scale_attempts]: the schedule depends
    on the configuration alone, never on the state, the proposal or what the
    hooks return. *)
Theorem scale_schedule cfg deps st proposed w :
  exists attempts,
    attempts <= max_scale_attempts cfg /\
    multipliers (calls (enforce cfg deps st proposed w)) =
      map (scale_k (scale_factor cfg)) (seq 0 attempts).
Proof.
  assert (Hnone : multipliers (calls (enforce cfg deps st proposed w)) = [] ->
                  exists attempts,
                    attempts <= max_scale_attempts cfg /\
                    multipliers (calls (enforce cfg deps st proposed w)) =
                      map (scale_k (scale_factor cfg)) (seq 0 attempts)).
  { intros E. exists 0. split; [lia | exact E]. }
  destruct (mode cfg) eqn:Hmode;
    try (apply Hnone, multipliers_none;
         apply (proj1 (Nat.le_0_r _));
         apply (enforce_leaves_alone cfg deps st proposed is_ScaleStep);
         [reflexivity | reflexivity
         | intros adm E; congruence
         | intros adm _; apply enforce_project_no_scaling]).
  unfold enforce. rewrite noexcept_run. cbn [calls].
  destruct (is_admissible deps) as [adm|];
    [destruct (neutral_step deps) as [nf|]|];
    try (exists 0; split; [lia | apply multipliers_neutral_safe]).
  unfold bind. rewrite safe_is_admissible_run.
  destruct (adm st proposed w) as [[[|]| |] w1]; cbn [fst snd negb].
  - exists 0. split; [lia | reflexivity].
  - rewrite Hmode. unfold enforce_scale.
    destruct (scale_step deps) as [scale|].
    + destruct (scale_loop_multipliers cfg deps adm scale st proposed
                  (max_scale_attempts cfg) 0 w1) as (m & Hm & Hk).
      cbn [scale_k] in Hk. rewrite noexcept_run.
      destruct (scale_loop cfg deps adm scale st proposed (max_scale_attempts cfg) 1 w1)
        as [o w2 t2].
      cbn [calls outcome world] in *. exists m. split; [exact Hm | exact Hk].
    + rewrite noexcept_run.
      pose proof (multipliers_neutral_safe deps w1) as Hn.
      destruct (neutral_safe deps w1) as [o w2 t2]. cbn [calls outcome world] in *.
      exists 0. split; [lia | exact Hn].
  - pose proof (multipliers_neutral_safe deps w1) as Hn.
    destruct (neutral_safe deps w1) as [o w2 t2]. cbn [calls] in *.
    exists 0. split; [lia | exact Hn].
  - exists 0. split; [lia | reflexivity].
Qed.

End Arguments.
